(** * Pire counting scanner: runtime state, actions and gluing

    A shallow embedding of [pire/extra/count.h] (the counting scanner's
    runtime: [Initialize], [Next], [TakeAction], [State::Result],
    [RemapAction]) and of the scanner-compilation loop of
    [tools/bench/bench.cpp], together with the properties the specification
    states about them.

    Machine integers are integers of [Z] with their wrap-around written out;
    the arrays [m_current] and [m_total] are lists updated by index. *)

From Stdlib Require Import ZArith Lia Bool.
From stdpp Require Import base numbers list strings pretty.

Local Open Scope Z_scope.
#[local] Set Warnings "-clear-no-such-hyp".

(** ** Machine integers *)

(** [ui32]: an unsigned 32-bit value ([Action], the counters). *)
Definition ui32 (z : Z) : Z := z mod 2 ^ 32.

(** [size_t]: an unsigned 64-bit value ([m_updatedMask], [InternalState]). *)
Definition size_t (z : Z) : Z := z mod 2 ^ 64.

(** The C++ truth value of an integer used as a condition. *)
Definition nonzero (z : Z) : bool := negb (z =? 0).

(** ** What [count.h] inherits from [LoadedScanner] *)

Module LoadedScanner.

(** Modelled from the spec: [scanners/loaded.h], which declares
    [LoadedScanner::MAX_RE_COUNT], is not part of the sources at hand.  The
    specification gives it as a small compile-time constant, typically 16. *)
Definition MAX_RE_COUNT : nat := 16.

(** Modelled from the spec: the masks [IncrementMask] and [ResetMask] of
    [scanners/loaded.h] are missing.  The action word is a bitmask with two
    disjoint halves: the low half holds the increment bits, one per tracked
    pattern, the high half the reset bits. *)
Definition IncrementMask : Z := Z.shiftl 1 (Z.of_nat MAX_RE_COUNT) - 1.
Definition ResetMask : Z := ui32 (Z.shiftl IncrementMask (Z.of_nat MAX_RE_COUNT)).

(** Modelled from the spec: the type [Transition] of [scanners/loaded.h] is
    missing.  A table entry holds a 32-bit offset from the current row to the
    row of the target state, and the action word. *)
Record Transition := mkTransition { shift : Z; action : Z }.

Definition sizeof_Transition : Z := 8.

(** Modelled from the spec: [SignExtend] of [scanners/loaded.h] is missing.
    The offset of an entry is signed: it is stored in 32 bits and read back
    as a signed number. *)
Definition SignExtend (i : Z) : Z := if i <? 2 ^ 31 then i else i - 2 ^ 32.

End LoadedScanner.

Import LoadedScanner.

(** ** The counting scanner *)

(** [enum { IncrementAction = 1, ResetAction = 2,
           FinalFlag = 0, DeadFlag = 1, Matched = 2 }] *)
Definition IncrementAction : Z := 1.
Definition ResetAction : Z := 2.
Definition FinalFlag : Z := 0.
Definition DeadFlag : Z := 1.
Definition Matched : Z := 2.

Definition OPTIMAL_RE_COUNT : nat := 4.

(** [CountingScanner::State] *)
Record State := mkState {
  m_state : Z;
  m_current : list Z;
  m_total : list Z;
  m_updatedMask : Z
}.

Definition set_state (s : State) (v : Z) : State :=
  mkState v (m_current s) (m_total s) (m_updatedMask s).
Definition set_current (s : State) (i : nat) (v : Z) : State :=
  mkState (m_state s) (<[i := v]> (m_current s)) (m_total s) (m_updatedMask s).
Definition set_total (s : State) (i : nat) (v : Z) : State :=
  mkState (m_state s) (m_current s) (<[i := v]> (m_total s)) (m_updatedMask s).
Definition set_updatedMask (s : State) (v : Z) : State :=
  mkState (m_state s) (m_current s) (m_total s) v.

(** The part of a compiled scanner the runtime reads, inherited from
    [LoadedScanner]: the initial state [m.initial] (an address), the letter
    table [m_letters] and the memory holding the transition rows, read at an
    address. *)
Record CountingScanner := mkCountingScanner {
  initial : Z;
  m_letters : list Z;
  m_memory : Z -> Transition
}.

(** [size_t Result(int i) const { return ymax(m_current[i], m_total[i]); }] *)
Definition Result (s : State) (i : nat) : Z :=
  Z.max (m_current s !!! i) (m_total s !!! i).

(** [PerformIncrementer<I>::Do]: template recursion from [I] down to [0]. *)
Fixpoint PerformIncrementer (I : nat) (s : State) (mask : Z) : State :=
  match I with
  | O => s
  | S I' =>
      let s' :=
        if nonzero (Z.land mask (Z.shiftl 1 (Z.of_nat I')))
        then set_current s I' (ui32 (m_current s !!! I' + 1))
        else s in
      PerformIncrementer I' s' mask
  end.

(** [PerformReseter<I>::Do] *)
Fixpoint PerformReseter (I : nat) (s : State) (mask : Z) : State :=
  match I with
  | O => s
  | S I' =>
      let s' :=
        if nonzero (Z.land mask (Z.shiftl 1 (Z.of_nat (MAX_RE_COUNT + I'))))
           && nonzero (m_current s !!! I')
        then
          let s1 := set_total s I' (Z.max (m_total s !!! I') (m_current s !!! I')) in
          set_current s1 I' 0
        else s in
      PerformReseter I' s' mask
  end.

(** [CountingScanner::Initialize]: every field of the state is overwritten. *)
Definition Initialize (sc : CountingScanner) : State :=
  {| m_state := initial sc;
     m_current := replicate MAX_RE_COUNT 0;
     m_total := replicate MAX_RE_COUNT 0;
     m_updatedMask := 0 |}.

(** [CountingScanner::PerformIncrement<ActualReCount>] *)
Definition PerformIncrement (ActualReCount : nat) (s : State) (mask : Z) : State :=
  if nonzero mask then
    let s1 := PerformIncrementer ActualReCount s mask in
    set_updatedMask s1
      (Z.lor (m_updatedMask s1) (size_t (Z.shiftl mask (Z.of_nat MAX_RE_COUNT))))
  else s.

(** [CountingScanner::PerformReset<ActualReCount>]: [mask] is an [Action], so
    the conjunction with the wider [m_updatedMask] is truncated to 32 bits,
    and [(Action)~mask] is the 32-bit complement. *)
Definition PerformReset (ActualReCount : nat) (s : State) (mask : Z) : State :=
  let mask := ui32 (Z.land mask (m_updatedMask s)) in
  if nonzero mask then
    let s1 := PerformReseter ActualReCount s mask in
    set_updatedMask s1 (Z.land (m_updatedMask s1) (ui32 (Z.lnot mask)))
  else s.

(** [CountingScanner::TakeActionImpl<ActualReCount>] *)
Definition TakeActionImpl (ActualReCount : nat) (s : State) (a : Z) : State :=
  let s1 := if nonzero (Z.land a IncrementMask)
            then PerformIncrement ActualReCount s a else s in
  if nonzero (Z.land a ResetMask)
  then PerformReset ActualReCount s1 a else s1.

(** [CountingScanner::TakeAction] *)
Definition TakeAction (s : State) (a : Z) : State :=
  TakeActionImpl OPTIMAL_RE_COUNT s a.

(** [bool CanStop(const State&) const { return false; }] *)
Definition CanStop (sc : CountingScanner) (s : State) : bool := false.

(** [bool Final(const State&) const { return false; }] *)
Definition Final (sc : CountingScanner) (s : State) : bool := false.

(** [bool Dead(const State&) const { return false; }] *)
Definition Dead (sc : CountingScanner) (s : State) : bool := false.

(** [Char Translate(Char ch) const { return m_letters[ch]; }] *)
Definition Translate (sc : CountingScanner) (ch : Z) : Z :=
  m_letters sc !!! Z.to_nat ch.

(** [reinterpret_cast<const Transition*>(p)[c]] *)
Definition transition_at (sc : CountingScanner) (p c : Z) : Transition :=
  m_memory sc (p + c * sizeof_Transition).

(** [CountingScanner::NextTranslated]: the new state and the returned action. *)
Definition NextTranslated (sc : CountingScanner) (s : State) (c : Z) : State * Z :=
  let x := transition_at sc (m_state s) c in
  (set_state s (size_t (m_state s + SignExtend (shift x))), action x).

(** [Action Next(State& s, Char c) const] *)
Definition Next (sc : CountingScanner) (s : State) (c : Z) : State * Z :=
  NextTranslated sc s (Translate sc c).

(** [CountingScanner::RemapAction] *)
Definition RemapAction (action : Z) : Z :=
  if action =? Z.lor Matched DeadFlag then 1
  else if action =? DeadFlag then Z.shiftl 1 (Z.of_nat MAX_RE_COUNT)
  else 0.

(** *** References to states

    [Next(const State& current, State& n, Char c)] receives two references;
    nothing prevents a caller from passing the same object twice.  The
    objects live in a store indexed by locations. *)
Definition loc := nat.
Definition Store := loc -> State.

Definition store_set (st : Store) (l : loc) (v : State) : Store :=
  fun l' => if decide (l' = l) then v else st l'.

(** [n = current; return Next(n, c);] *)
Definition Next_into (sc : CountingScanner) (st : Store) (current n : loc) (c : Z)
  : Store * Z :=
  let st1 := store_set st n (st current) in
  let '(n', a) := Next sc (st1 n) c in
  (store_set st1 n n', a).

(** ** Runs of the scanner *)

(** What the driver does to a state: it feeds a character to [Next] or
    delivers an action word to [TakeAction]. *)
Inductive Event :=
| EvNext (c : Z)
| EvAction (a : Z).

Definition step (sc : CountingScanner) (s : State) (ev : Event) : State :=
  match ev with
  | EvNext c => fst (Next sc s c)
  | EvAction a => TakeAction s a
  end.

Definition run (sc : CountingScanner) (evs : list Event) : State :=
  fold_left (step sc) evs (Initialize sc).

(** The states that occur at run time, at every sequence point of the
    scanner's methods: the one [Initialize] produces, those [Next] produces
    and those the two halves of [TakeActionImpl] produce, each under the
    test that guards it. *)
Inductive runtime_state (sc : CountingScanner) : State -> Prop :=
| rs_Initialize : runtime_state sc (Initialize sc)
| rs_Next s c : runtime_state sc s -> runtime_state sc (fst (Next sc s c))
| rs_PerformIncrement s a :
    runtime_state sc s -> nonzero (Z.land a IncrementMask) = true ->
    runtime_state sc (PerformIncrement OPTIMAL_RE_COUNT s a)
| rs_PerformReset s a :
    runtime_state sc s -> nonzero (Z.land a ResetMask) = true ->
    runtime_state sc (PerformReset OPTIMAL_RE_COUNT s a).

(** A scanner with a one-state table, for concrete runs. *)
Definition scanner0 : CountingScanner :=
  mkCountingScanner 4096 (replicate 256 0) (fun _ => mkTransition 0 0).

(** A scanner whose every transition moves on by one table entry. *)
Definition scanner8 : CountingScanner :=
  mkCountingScanner 4096 (replicate 256 0) (fun _ => mkTransition 8 0).

(** Modelled from the spec: the builder behind
    [CountingScanner(const Fsm& re, const Fsm& sep)], the only user of the
    private [RemapAction], is missing.  The scanner it builds counts the
    occurrences of one target pattern: it tracks one pattern, of index 0. *)
Definition built_regexps : nat := 1.

(** ** What the unrolled loops do to a counter *)

(** [PerformIncrementer<n>] bumps counter [i]. *)
Definition bumps (n : nat) (mask : Z) (l : list Z) (i : nat) : bool :=
  bool_decide (i < n)%nat && bool_decide (i < length l)%nat
  && Z.testbit mask (Z.of_nat i).

(** [PerformReseter<n>] commits and clears counter [i]. *)
Definition commits (n : nat) (mask : Z) (l : list Z) (i : nat) : bool :=
  bool_decide (i < n)%nat && bool_decide (i < length l)%nat
  && Z.testbit mask (Z.of_nat (MAX_RE_COUNT + i)) && nonzero (l !!! i).

(** ** The invariant behind the reset gate

    The arrays keep their [MAX_RE_COUNT] entries, the counters stay 32-bit
    values, a counter that is not zero has its gate bit set, and the
    counters [TakeAction] never reaches are zero. *)

Definition gate_sound (s : State) : Prop :=
  length (m_current s) = MAX_RE_COUNT
  /\ length (m_total s) = MAX_RE_COUNT
  /\ (forall i, (i < MAX_RE_COUNT)%nat ->
        0 <= m_current s !!! i < 2 ^ 32 /\ 0 <= m_total s !!! i < 2 ^ 32)
  /\ (forall i, (i < MAX_RE_COUNT)%nat -> m_current s !!! i <> 0 ->
        Z.testbit (m_updatedMask s) (Z.of_nat (MAX_RE_COUNT + i)) = true)
  /\ (forall i, (OPTIMAL_RE_COUNT <= i < MAX_RE_COUNT)%nat -> m_current s !!! i = 0).

(** ** Resets as the specification words them

    Reset(i) commits [current[i]] into [total[i] := max(total[i], current[i])]
    and zeroes [current[i]]; an action word applies it for every pattern
    whose reset bit is set, with no test of [m_updatedMask]. *)
Definition Reset_spec (s : State) (i : nat) : State :=
  set_current (set_total s i (Z.max (m_total s !!! i) (m_current s !!! i))) i 0.

Definition reset_if (a : Z) (s : State) (i : nat) : State :=
  if Z.testbit a (Z.of_nat (MAX_RE_COUNT + i)) then Reset_spec s i else s.

Definition resets_spec (s : State) (a : Z) : State :=
  fold_left (reset_if a) (seq 0 MAX_RE_COUNT) s.

(** The two halves of [TakeActionImpl<OPTIMAL_RE_COUNT>], each under its
    guard. *)
Definition increment_half (s : State) (a : Z) : State :=
  if nonzero (Z.land a IncrementMask) then PerformIncrement OPTIMAL_RE_COUNT s a else s.

Definition reset_half (s : State) (a : Z) : State :=
  if nonzero (Z.land a ResetMask) then PerformReset OPTIMAL_RE_COUNT s a else s.

(** [TakeAction] with the reset half replaced by the ungated resets. *)
Definition TakeAction_ungated (s : State) (a : Z) : State :=
  let s1 := if nonzero (Z.land a IncrementMask)
            then PerformIncrement OPTIMAL_RE_COUNT s a else s in
  resets_spec s1 a.

Definition step_ungated (sc : CountingScanner) (s : State) (ev : Event) : State :=
  match ev with
  | EvNext c => fst (Next sc s c)
  | EvAction a => TakeAction_ungated s a
  end.

Definition run_ungated (sc : CountingScanner) (evs : list Event) : State :=
  fold_left (step_ungated sc) evs (Initialize sc).

(** ** Gluing scanners, and the benchmark's compilation loop *)

Module Pire.

(** Modelled from the spec: the definition of [Glue] (declared at
    [count.h:135], called in [bench.cpp]) and of the scanner it works on
    are not part of the sources at hand.  Following section 4.F of the
    specification: a scanner has a letter table mapping each byte to a
    class, one row of next states per state, indexed by class, and the set
    of accepted patterns of each state; its "empty" sentinel has no state. *)
Record Scanner := mkScanner {
  letters : list nat;
  initial_state : nat;
  transitions : list (list nat);
  accepted : list (list nat);
  regexps : nat
}.

(** Modelled from the spec: the default-constructed scanner,
    [Pire::Scanner sc;], is the "empty" sentinel, a scanner with no states. *)
Definition empty_scanner : Scanner := mkScanner [] 0 [] [] 0.

(** Modelled from the spec: [sc.Empty()], whose definition is missing, tells
    the sentinel, the scanner with no states, from the others. *)
Definition Empty (sc : Scanner) : bool := bool_decide (transitions sc = []).

Definition next_state (sc : Scanner) (s c : nat) : nat :=
  (transitions sc !!! s) !!! c.

(** The merged alphabet: the classes of the coarsest common refinement of
    the two letter partitions are the pairs of classes some byte has. *)
Definition merged_classes (a b : Scanner) : list (nat * nat) :=
  remove_dups (zip (letters a) (letters b)).

Fixpoint index_of (p : nat * nat) (l : list (nat * nat)) : option nat :=
  match l with
  | [] => None
  | q :: l' => if decide (p = q) then Some O else S <$> index_of p l'
  end.

Definition merged_letters (a b : Scanner) : list nat :=
  (fun p => default O (index_of p (merged_classes a b))) <$> zip (letters a) (letters b).

(** A product state gets a new ID on first encounter: its position in the
    list of the product states seen so far. *)
Definition intern (p : nat * nat) (seen : list (nat * nat)) : list (nat * nat) * nat :=
  match index_of p seen with
  | Some id => (seen, id)
  | None => (seen ++ [p], length seen)
  end.

(** The row of the product state [(s1, s2)]: for each class of the merged
    alphabet the pair of next states, interned. *)
Definition emit_row (a b : Scanner) (p : nat * nat) (seen : list (nat * nat))
  : list (nat * nat) * list nat :=
  fold_left
    (fun (acc : list (nat * nat) * list nat) (c : nat * nat) =>
       let '(id_seen, id) :=
         intern (next_state a p.1 c.1, next_state b p.2 c.2) acc.1 in
       (id_seen, acc.2 ++ [id]))
    (merged_classes a b) (seen, []).

(** The product state count exceeds [maxSize]; [0] means "no limit". *)
Definition exceeds (maxSize count : nat) : bool :=
  negb (Nat.eqb maxSize 0) && Nat.ltb maxSize count.

(** Modelled from the spec: the worklist of section 4.F over the reachable
    product states.  The product states are processed in the order of their
    IDs; the ones not processed yet are those without a row.  For the state
    at hand a transition is emitted for each class of the merged alphabet,
    new product states getting their IDs.  [None] is the stop on a product
    state count that exceeds [maxSize]. *)
Fixpoint explore (a b : Scanner) (maxSize fuel : nat)
    (seen : list (nat * nat)) (rows : list (list nat))
  : option (list (nat * nat) * list (list nat)) :=
  match fuel with
  | O => Some (seen, rows)
  | S fuel' =>
      match seen !! length rows with
      | None => Some (seen, rows)
      | Some p =>
          let '(seen', row) := emit_row a b p seen in
          if exceeds maxSize (length seen') then None
          else explore a b maxSize fuel' seen' (rows ++ [row])
      end
  end.

(** Every product state is a pair of values the two tables can produce, so
    there are at most [state_bound] of them and that many rounds suffice. *)
Definition state_values (sc : Scanner) : list nat :=
  initial_state sc :: O :: concat (transitions sc).

Definition state_bound (a b : Scanner) : nat :=
  length (state_values a) * length (state_values b).

(** The product states seen are distinct pairs of such values. *)
Definition known_states (a b : Scanner) (seen : list (nat * nat)) : Prop :=
  NoDup seen
  /\ forall p, p ∈ seen -> p.1 ∈ state_values a /\ p.2 ∈ state_values b.

Definition product (a b : Scanner) (maxSize : nat)
  : option (list (nat * nat) * list (list nat)) :=
  explore a b maxSize (S (state_bound a b)) [(initial_state a, initial_state b)] [].

(** Accept sets are concatenated, the pattern IDs of the second scanner
    shifted by the pattern count of the first. *)
Definition product_accepted (a b : Scanner) (p : nat * nat) : list nat :=
  (accepted a !!! p.1) ++ ((fun id => regexps a + id)%nat <$> (accepted b !!! p.2)).

(** Modelled from the spec: [Glue(a, b, maxSize)], declared at [count.h:135]
    and defined in a file that is missing, is the product scanner, or the
    empty sentinel when the product exceeds [maxSize]. *)
Definition Glue (a b : Scanner) (maxSize : nat) : Scanner :=
  match product a b maxSize with
  | None => empty_scanner
  | Some (seen, rows) =>
      mkScanner (merged_letters a b) 0 rows (product_accepted a b <$> seen)
        (regexps a + regexps b)
  end.

(** The product states of the unlimited construction. *)
Definition product_states (a b : Scanner) : list (nat * nat) :=
  match product a b 0 with
  | Some (seen, _) => seen
  | None => []
  end.

(** How a C++ call ends: it returns a value or it throws. *)
Inductive outcome (A : Type) : Type :=
| Returned (x : A)
| Thrown (what : string).
Arguments Returned {A} x.
Arguments Thrown {A} what.

(** [Compile< Pire::Impl::Scanner<Relocation> >::Do] of [bench.cpp]: the
    loop over the regexps, [sc] being the scanner glued so far and [idx]
    the position [i - fsms.begin()].  Compiling one regexp to a
    [Pire::Scanner] is the parameter [compile].  [Glue(sc, tsc)] leaves
    [maxSize] to its default argument, declared with [Pire::Scanner] and so
    not at hand: the parameter [default_maxSize]. *)
Fixpoint Do_loop {Fsm : Type} (compile : Fsm -> Scanner) (default_maxSize : nat)
    (sc : Scanner) (idx : nat) (fsms : list Fsm) : outcome Scanner :=
  match fsms with
  | [] => Returned sc
  | f :: rest =>
      let tsc := compile f in
      if Nat.eqb idx 0 then Do_loop compile default_maxSize tsc (S idx) rest
      else
        let sc' := Glue sc tsc default_maxSize in
        if Empty sc'
        then Thrown ("Scanner gluing failed at regexp #" +:+ pretty idx
                     +:+ " - pattern too complicated")
        else Do_loop compile default_maxSize sc' (S idx) rest
  end.

Definition Do {Fsm : Type} (compile : Fsm -> Scanner) (default_maxSize : nat)
    (fsms : list Fsm) : outcome Scanner :=
  Do_loop compile default_maxSize empty_scanner 0 fsms.

(** Two one-letter scanners with two states each, stepping in a cycle. *)
Definition cycle2 : Scanner :=
  mkScanner (replicate 256 O) 0 [[1%nat]; [O]] [[]; [O]] 1.

End Pire.

(** ** The walk through the table, and the words of a run *)

(** [void Next(InternalState& s, Char c) const] (private): the step on
    the bare position. *)
Definition Next_internal (sc : CountingScanner) (s c : Z) : Z :=
  let x := transition_at sc s (Translate sc c) in
  size_t (s + SignExtend (shift x)).

(** The characters fed to [Next] and the action words delivered to
    [TakeAction], in the order of the events. *)
Definition chars_of (evs : list Event) : list Z :=
  omap (fun ev => match ev with EvNext c => Some c | EvAction _ => None end) evs.

Definition actions_of (evs : list Event) : list Z :=
  omap (fun ev => match ev with EvNext _ => None | EvAction a => Some a end) evs.

(** Going on from a state. *)
Definition steps (sc : CountingScanner) (s : State) (evs : list Event) : State :=
  fold_left (step sc) evs s.

(** The action words with a single bit: Increment(i) is bit [i], Reset(i) is
    bit [MAX_RE_COUNT + i]. *)
Definition Increment (i : nat) : Z := Z.shiftl 1 (Z.of_nat i).
Definition Reset (i : nat) : Z := Z.shiftl 1 (Z.of_nat (MAX_RE_COUNT + i)).

(** [n] matches of pattern [i] in a row, then a separator. *)
Definition matches_then_separator (i n : nat) : list Event :=
  repeat (EvAction (Increment i)) n ++ [EvAction (Reset i)].

(** How many of the actions delivered carry Increment(i). *)
Definition increments_of (i : nat) (evs : list Event) : nat :=
  length (filter (fun a => Z.testbit a (Z.of_nat i) = true) (actions_of evs)).

(** ** The benchmark tool: arguments, testers, compilation *)

Module Bench.

Import Pire.

(** [std::runtime_error usage("Usage: ...")] *)
Definition usage : string :=
  "Usage: bench -f file -t {multi|nonreloc|simple|slow|null} regexp [regexp2 [-e regexp3...]] [-t <type> regexp4 [regexp5...]]".

(** [fsms.back().push_back(x)].  [back()] of an empty vector is undefined;
    both callers test [fsms.empty()] before. *)
Fixpoint push_back_last {A : Type} (x : A) (groups : list (list A)) : list (list A) :=
  match groups with
  | [] => []
  | [g] => [g ++ [x]]
  | g :: gs => g :: push_back_last x gs
  end.

(** [if (fsms.empty()) throw usage;
     fsms.back().push_back(Pire::Lexer(std::string(arg)).Parse().Surround());]
    followed by the rest of the loop, [k].  The parser is not at hand: [parse]
    returns the machine or throws. *)
Definition add_regexp {Fsm R : Type} (parse : string -> outcome Fsm) (arg : string)
    (fsms : list (list Fsm)) (k : list (list Fsm) -> outcome R) : outcome R :=
  match fsms with
  | [] => Thrown usage
  | _ :: _ =>
      match parse arg with
      | Thrown what => Thrown what
      | Returned f => k (push_back_last f fsms)
      end
  end.

(** The loop of [Main] over the arguments after [argv[0]]: [arg] is [*argv],
    an option takes its operand [argv[1]] when [argc >= 2]. *)
Fixpoint parse_args {Fsm : Type} (parse : string -> outcome Fsm) (args : list string)
    (types : list string) (fsms : list (list Fsm)) (file : string)
  : outcome (list string * list (list Fsm) * string) :=
  match args with
  | [] => Returned (types, fsms, file)
  | arg :: rest =>
      match rest with
      | operand :: rest' =>
          if String.eqb arg "-t"
          then parse_args parse rest' (types ++ [operand]) (fsms ++ [[]]) file
          else if String.eqb arg "-f"
          then parse_args parse rest' types fsms operand
          else if String.eqb arg "-e"
          then add_regexp parse operand fsms
                 (fun fsms' => parse_args parse rest' types fsms' file)
          else add_regexp parse arg fsms
                 (fun fsms' => parse_args parse rest types fsms' file)
      | [] =>
          add_regexp parse arg fsms
            (fun fsms' => parse_args parse rest types fsms' file)
      end
  end.

(** [types.empty() || file.empty() || fsms.back().empty()], evaluated from
    left to right; [None] stands for [back()] of an empty vector. *)
Definition arguments_missing {Fsm : Type} (types : list string)
    (fsms : list (list Fsm)) (file : string) : option bool :=
  match types with
  | [] => Some true
  | _ :: _ =>
      if String.eqb file "" then Some true
      else match last fsms with
           | Some [] => Some true
           | Some (_ :: _) => Some false
           | None => None
           end
  end.

(** The scanners the tool can test, and the testers it builds. *)
Inductive scanner_type := multi | nonreloc | simple | slow.

Inductive tester :=
| Tester (t : scanner_type)
| MemTester
| PairTester (t1 t2 : scanner_type).

(** [types.size() == 1 && types[0] == t] *)
Definition one_type (types : list string) (t : string) : bool :=
  match types with
  | [x] => String.eqb x t
  | _ => false
  end.

(** [types.size() == 2 && types[0] == t1 && types[1] == t2] *)
Definition two_types (types : list string) (t1 t2 : string) : bool :=
  match types with
  | [x; y] => String.eqb x t1 && String.eqb y t2
  | _ => false
  end.

(** The chain of tests of [Main] that picks the tester; [None] is
    [throw usage]. *)
Definition select_tester (types : list string) : option tester :=
  if one_type types "multi" then Some (Tester multi)
  else if one_type types "nonreloc" then Some (Tester nonreloc)
  else if one_type types "simple" then Some (Tester simple)
  else if one_type types "slow" then Some (Tester slow)
  else if one_type types "null" then Some MemTester
  else if two_types types "multi" "multi" then Some (PairTester multi multi)
  else if two_types types "multi" "simple" then Some (PairTester multi simple)
  else if two_types types "multi" "nonreloc" then Some (PairTester multi nonreloc)
  else if two_types types "simple" "simple" then Some (PairTester simple simple)
  else if two_types types "simple" "multi" then Some (PairTester simple multi)
  else if two_types types "simple" "nonreloc" then Some (PairTester simple nonreloc)
  else if two_types types "nonreloc" "multi" then Some (PairTester nonreloc multi)
  else if two_types types "nonreloc" "simple" then Some (PairTester nonreloc simple)
  else if two_types types "nonreloc" "nonreloc" then Some (PairTester nonreloc nonreloc)
  else None.

(** [Compile<Scanner>::Do], the primary template: exactly one regexp. *)
Definition Compile_Do {Fsm S : Type} (compile : Fsm -> S) (fsms : list Fsm) : outcome S :=
  match fsms with
  | [f] => Returned (compile f)
  | _ => Thrown "Only one regexp is allowed for this scanner"
  end.

(** [Tester<Scanner>::Compile]; [compile_group] is [::Compile<Scanner>::Do]. *)
Definition Tester_Compile {Fsm S : Type} (compile_group : list Fsm -> outcome S)
    (fsms : list (list Fsm)) : outcome S :=
  match fsms with
  | [g] => compile_group g
  | _ => Thrown "Only one set of regexps is allowed for this scanner"
  end.

(** [PairTester<Scanner1, Scanner2>::Compile] *)
Definition PairTester_Compile {Fsm S : Type}
    (compile_group1 compile_group2 : list Fsm -> outcome S)
    (fsms : list (list Fsm)) : outcome (S * S) :=
  match fsms with
  | [g1; g2] =>
      match compile_group1 g1 with
      | Thrown what => Thrown what
      | Returned sc1 =>
          match compile_group2 g2 with
          | Thrown what => Thrown what
          | Returned sc2 => Returned (sc1, sc2)
          end
      end
  | _ => Thrown "Only two sets of regexps are allowed for this scanner"
  end.

(** What [tester->Compile(fsms)] leaves in the tester. *)
Inductive compiled (S : Type) : Type :=
| CompiledOne (sc : S)
| CompiledPair (sc1 sc2 : S)
| CompiledNone.
Arguments CompiledOne {S} sc.
Arguments CompiledPair {S} sc1 sc2.
Arguments CompiledNone {S}.

(** [tester->Compile(fsms)]: [Compile_of t] is [::Compile<Scanner>::Do] for
    the scanner of type [t]; [MemTester::Compile] does nothing. *)
Definition tester_Compile {Fsm S : Type} (Compile_of : scanner_type -> list Fsm -> outcome S)
    (t : tester) (fsms : list (list Fsm)) : outcome (compiled S) :=
  match t with
  | Tester k =>
      match Tester_Compile (Compile_of k) fsms with
      | Thrown what => Thrown what
      | Returned sc => Returned (CompiledOne sc)
      end
  | MemTester => Returned CompiledNone
  | PairTester k1 k2 =>
      match PairTester_Compile (Compile_of k1) (Compile_of k2) fsms with
      | Thrown what => Thrown what
      | Returned (sc1, sc2) => Returned (CompiledPair sc1 sc2)
      end
  end.

(** [Main] up to and including [tester->Compile(fsms)], that is before the
    file is opened: the tester chosen, what it compiled and the file name.
    The outer [None] is undefined behaviour. *)
Definition Main_compile {Fsm S : Type} (parse : string -> outcome Fsm)
    (Compile_of : scanner_type -> list Fsm -> outcome S) (argv : list string)
  : option (outcome (tester * compiled S * string)) :=
  match parse_args parse (tail argv) [] [] "" with
  | Thrown what => Some (Thrown what)
  | Returned (types, fsms, file) =>
      match arguments_missing types fsms file with
      | None => None
      | Some true => Some (Thrown usage)
      | Some false =>
          match select_tester types with
          | None => Some (Thrown usage)
          | Some t =>
              match tester_Compile Compile_of t fsms with
              | Thrown what => Some (Thrown what)
              | Returned c => Some (Returned (t, c, file))
              end
          end
      end
  end.

(** [MemTester::Run]: the words of the buffer from [b] up to [e], eight
    bytes each, folded with xor; [load p] is the word read at address [p]. *)
Fixpoint MemTester_Run_loop (load : Z -> Z) (fuel : nat) (b e c : Z) : Z :=
  match fuel with
  | O => c
  | S fuel' =>
      if b <? e then MemTester_Run_loop load fuel' (b + 8) e (Z.lxor c (load b))
      else c
  end.

Definition MemTester_Run (load : Z -> Z) (begin_ end_ : Z) : Z :=
  MemTester_Run_loop load (Z.to_nat (end_ - begin_)) begin_ end_ 0.

End Bench.

(** ** Shapes of input for the benchmark tool *)

(** A command line for the tool (after [argv[0]]): the file, then each
    tester type followed by its regexps, every regexp behind [-e]. *)
Definition command_line (file : string) (groups : list (string * list string))
  : list string :=
  ["-f"; file]
  ++ flat_map (fun g => ["-t"; g.1] ++ flat_map (fun r => ["-e"; r]) g.2) groups.

(** The scanners of a list of regexps glued from the left, one at a time. *)
Definition glue_all {Fsm : Type} (compile : Fsm -> Pire.Scanner) (maxSize : nat)
    (first : Fsm) (rest : list Fsm) : Pire.Scanner :=
  fold_left (fun sc f => Pire.Glue sc (compile f) maxSize) rest (compile first).

(** The addresses of [n] consecutive eight-byte words from [b] on. *)
Fixpoint words_from (b : Z) (n : nat) : list Z :=
  match n with
  | O => []
  | S n' => b :: words_from (b + 8) n'
  end.

(** Two events the scanner cannot tell apart: the same action word, or two
    characters with the same letter in [m_letters]. *)
Definition same_letter (sc : CountingScanner) (ev ev' : Event) : Prop :=
  match ev, ev' with
  | EvNext c, EvNext c' => Translate sc c = Translate sc c'
  | EvAction a, EvAction a' => a = a'
  | _, _ => False
  end.

(** ** The benchmark tool's file mapping *)

Module Mmap.

Import Pire.

(** [class FileMmap]: the descriptor, the address of the mapping and its
    length; zero stands for "none". *)
Record FileMmap := mkFileMmap { m_fd : Z; m_mmap : Z; m_len : Z }.

(** The calls that give a resource back to the system. *)
Inductive release :=
| munmap (addr len : Z)
| close (fd : Z).

(** [FileMmap::Close]: the calls made and the object afterwards. *)
Definition Close (f : FileMmap) : list release * FileMmap :=
  ((if nonzero (m_mmap f) then [munmap (m_mmap f) (m_len f)] else [])
   ++ (if nonzero (m_fd f) then [close (m_fd f)] else []),
   mkFileMmap 0 0 0).

(** What the system answers to the constructor: the result of [open], the
    result of [fstat] with the size it stores, the result of [mmap], and
    the text [strerror(errno)] gives after each failure. *)
Record answers := mkAnswers {
  open_result : Z;
  fstat_result : Z;
  st_size : Z;
  mmap_result : Z;
  strerror : string
}.

(** [FileMmap::FileMmap(const char* name)]: the releasing calls made and
    the object, or the exception rethrown by [catch (...) { Close(); throw; }].
    [MAP_FAILED] is the constant of the system. *)
Definition FileMmap_new (MAP_FAILED : Z) (name : string) (sys : answers)
  : list release * outcome FileMmap :=
  let f0 := mkFileMmap 0 0 0 in
  if open_result sys =? -1
  then ((Close f0).1,
        Thrown ("open failed for " +:+ name +:+ ": " +:+ strerror sys))
  else
    let f1 := mkFileMmap (open_result sys) (m_mmap f0) (m_len f0) in
    if nonzero (fstat_result sys)
    then ((Close f1).1,
          Thrown ("fstat failed for" +:+ name +:+ ": " +:+ strerror sys))
    else
      let f2 := mkFileMmap (m_fd f1) (m_mmap f1) (st_size sys) in
      if mmap_result sys =? MAP_FAILED
      then ((Close f2).1,
            Thrown ("mmap failed for " +:+ name +:+ ": " +:+ strerror sys))
      else ([], Returned (mkFileMmap (m_fd f2) (mmap_result sys) (m_len f2))).

(** The releasing calls of a whole life: the constructor, then, if it
    returned, the destructor [~FileMmap() { Close(); }]. *)
Definition life (MAP_FAILED : Z) (name : string) (sys : answers) : list release :=
  match FileMmap_new MAP_FAILED name sys with
  | (calls, Returned f) => calls ++ (Close f).1
  | (calls, Thrown _) => calls
  end.

End Mmap.

(** * Properties *)

Example Initialize_scanner0 :
  Initialize scanner0 = mkState 4096 (replicate 16 0) (replicate 16 0) 0.
Proof. reflexivity. Qed.

Example TakeAction_incr_0 :
  m_current (TakeAction (Initialize scanner0) 1) !!! 0%nat = 1
  /\ m_updatedMask (TakeAction (Initialize scanner0) 1) = 65536.
Proof. split; reflexivity. Qed.

Example TakeAction_incr_reset :
  let s := run scanner0 [EvAction 1; EvAction 1; EvAction 65536; EvAction 1] in
  m_current s !!! 0%nat = 1 /\ m_total s !!! 0%nat = 2 /\ Result s 0 = 2.
Proof. vm_compute. auto. Qed.

(** ** Bits of machine words *)

Lemma nonzero_true z : nonzero z = true <-> z <> 0.
Proof. unfold nonzero. destruct (Z.eqb_spec z 0); simpl; split; congruence. Qed.

Lemma nonzero_false z : nonzero z = false <-> z = 0.
Proof. unfold nonzero. destruct (Z.eqb_spec z 0); simpl; split; congruence. Qed.

(** [mask & (1 << k)] is the C++ test of bit [k]. *)
Lemma nonzero_land_bit mask k :
  0 <= k -> nonzero (Z.land mask (Z.shiftl 1 k)) = Z.testbit mask k.
Proof.
  intros Hk. rewrite Z.shiftl_1_l.
  destruct (Z.testbit mask k) eqn:Hb.
  - apply nonzero_true. intros H0.
    assert (Hk' : Z.testbit (Z.land mask (2 ^ k)) k = true).
    { rewrite Z.land_spec, Hb, Z.pow2_bits_true; auto. }
    rewrite H0, Z.bits_0 in Hk'. discriminate.
  - apply nonzero_false. apply Z.bits_inj'. intros n Hn.
    rewrite Z.land_spec, Z.bits_0, Z.pow2_bits_eqb by assumption.
    destruct (Z.eqb_spec k n) as [->|]; [rewrite Hb; reflexivity | apply andb_false_r].
Qed.

Lemma testbit_nonzero z k : Z.testbit z k = true -> nonzero z = true.
Proof.
  intros Hb. apply nonzero_true. intros ->. rewrite Z.bits_0 in Hb. discriminate.
Qed.

Lemma testbit_ui32 z k : 0 <= k < 32 -> Z.testbit (ui32 z) k = Z.testbit z k.
Proof. intros Hk. unfold ui32. apply Z.mod_pow2_bits_low. lia. Qed.

Lemma testbit_size_t z k : 0 <= k < 64 -> Z.testbit (size_t z) k = Z.testbit z k.
Proof. intros Hk. unfold size_t. apply Z.mod_pow2_bits_low. lia. Qed.

Lemma ui32_range z : 0 <= ui32 z < 2 ^ 32.
Proof. unfold ui32. apply Z.mod_pos_bound. lia. Qed.

(** ** What the unrolled loops do to each counter *)

(** Case analysis on the index comparisons left by list lookups. *)
Ltac index_cases :=
  repeat case_bool_decide; repeat case_decide; cbn [andb orb negb];
  try reflexivity; try (exfalso; naive_solver lia).

(** Reading a field of a state that was just written. *)
Ltac state_simpl :=
  cbn [m_state m_current m_total m_updatedMask
       set_state set_current set_total set_updatedMask].

Section Loops.

Implicit Types (s : State) (mask : Z) (n i : nat).


Lemma PerformIncrementer_frame n s mask :
  m_state (PerformIncrementer n s mask) = m_state s
  /\ m_total (PerformIncrementer n s mask) = m_total s
  /\ m_updatedMask (PerformIncrementer n s mask) = m_updatedMask s
  /\ length (m_current (PerformIncrementer n s mask)) = length (m_current s).
Proof.
  revert s. induction n as [|n IH]; intros s; cbn [PerformIncrementer]; [auto|].
  destruct (nonzero _); [|apply IH].
  destruct (IH (set_current s n (ui32 (m_current s !!! n + 1))))
    as (H1 & H2 & H3 & H4).
  rewrite H1, H2, H3, H4. state_simpl. rewrite length_insert. auto.
Qed.

Lemma PerformIncrementer_current n s mask i :
  m_current (PerformIncrementer n s mask) !!! i =
  if bumps n mask (m_current s) i
  then ui32 (m_current s !!! i + 1) else m_current s !!! i.
Proof.
  revert s. induction n as [|n IH]; intros s; cbn [PerformIncrementer].
  { reflexivity. }
  rewrite nonzero_land_bit by lia. rewrite IH. unfold bumps.
  destruct (Z.testbit mask (Z.of_nat n)) eqn:Hn; state_simpl.
  - rewrite length_insert, list_lookup_total_insert.
    destruct (decide (i = n)) as [->|Hne]; [rewrite Hn|]; index_cases.
  - destruct (decide (i = n)) as [->|Hne]; [rewrite Hn|]; index_cases.
Qed.

Lemma PerformReseter_frame n s mask :
  m_state (PerformReseter n s mask) = m_state s
  /\ m_updatedMask (PerformReseter n s mask) = m_updatedMask s
  /\ length (m_current (PerformReseter n s mask)) = length (m_current s)
  /\ length (m_total (PerformReseter n s mask)) = length (m_total s).
Proof.
  revert s. induction n as [|n IH]; intros s; cbn [PerformReseter]; [auto|].
  destruct (_ && _); [|apply IH].
  match goal with |- context [PerformReseter n ?s' mask] =>
    destruct (IH s') as (H1 & H2 & H3 & H4) end.
  rewrite H1, H2, H3, H4. state_simpl. rewrite !length_insert. auto.
Qed.

Lemma PerformReseter_counters n s mask i :
  length (m_total s) = length (m_current s) ->
  m_current (PerformReseter n s mask) !!! i =
    (if commits n mask (m_current s) i then 0 else m_current s !!! i)
  /\ m_total (PerformReseter n s mask) !!! i =
    (if commits n mask (m_current s) i
     then Z.max (m_total s !!! i) (m_current s !!! i) else m_total s !!! i).
Proof.
  revert s. induction n as [|n IH]; intros s Hlen; cbn [PerformReseter].
  { split; reflexivity. }
  rewrite nonzero_land_bit by lia.
  destruct (Z.testbit mask (Z.of_nat (MAX_RE_COUNT + n))) eqn:Hb;
    destruct (nonzero (m_current s !!! n)) eqn:Hc; cbn [andb];
    match goal with |- context [PerformReseter n ?s' mask] =>
      destruct (IH s') as [Hcur Htot];
      [ state_simpl; rewrite ?length_insert; exact Hlen
      | rewrite Hcur, Htot; clear Hcur Htot ] end;
    unfold commits; state_simpl;
    rewrite ?length_insert, ?list_lookup_total_insert, ?Hlen;
    (destruct (decide (i = n)) as [->|Hne]; [rewrite ?Hb, ?Hc|]);
    split; index_cases.
Qed.

End Loops.

(** ** The two halves of [TakeActionImpl], counter by counter *)

Section Halves.

Implicit Types (s : State) (a : Z) (n i : nat).

Lemma bumps_0 n l i : bumps n 0 l i = false.
Proof. unfold bumps. rewrite Z.bits_0. apply andb_false_r. Qed.

Lemma commits_0 n l i : commits n 0 l i = false.
Proof. unfold commits. rewrite Z.bits_0, andb_false_r. reflexivity. Qed.

Lemma PerformIncrement_frame n s a :
  m_state (PerformIncrement n s a) = m_state s
  /\ m_total (PerformIncrement n s a) = m_total s
  /\ length (m_current (PerformIncrement n s a)) = length (m_current s).
Proof.
  unfold PerformIncrement. destruct (nonzero a); [|auto]. state_simpl.
  destruct (PerformIncrementer_frame n s a) as (H1 & H2 & _ & H4). auto.
Qed.

Lemma PerformIncrement_current n s a i :
  m_current (PerformIncrement n s a) !!! i =
  if bumps n a (m_current s) i
  then ui32 (m_current s !!! i + 1) else m_current s !!! i.
Proof.
  unfold PerformIncrement. destruct (nonzero a) eqn:Ha.
  - state_simpl. apply PerformIncrementer_current.
  - apply nonzero_false in Ha. subst a. rewrite bumps_0. reflexivity.
Qed.

(** The gate bit of pattern [i] is bit [MAX_RE_COUNT + i] of
    [m_updatedMask]: an increment sets it from bit [i] of the action. *)
Lemma PerformIncrement_updatedMask n s a k :
  0 <= k < 64 ->
  Z.testbit (m_updatedMask (PerformIncrement n s a)) k =
  Z.testbit (m_updatedMask s) k || Z.testbit a (k - Z.of_nat MAX_RE_COUNT).
Proof.
  intros Hk. unfold PerformIncrement. destruct (nonzero a) eqn:Ha.
  - state_simpl. destruct (PerformIncrementer_frame n s a) as (_ & _ & -> & _).
    rewrite Z.lor_spec, testbit_size_t, Z.shiftl_spec by lia. reflexivity.
  - apply nonzero_false in Ha. subst a. rewrite Z.bits_0, orb_false_r. reflexivity.
Qed.

Lemma PerformReset_frame n s a :
  m_state (PerformReset n s a) = m_state s
  /\ length (m_current (PerformReset n s a)) = length (m_current s)
  /\ length (m_total (PerformReset n s a)) = length (m_total s).
Proof.
  unfold PerformReset. destruct (nonzero _); [|auto]. state_simpl.
  match goal with |- context [PerformReseter n s ?m] =>
    destruct (PerformReseter_frame n s m) as (H1 & _ & H3 & H4) end. auto.
Qed.

Lemma PerformReset_counters n s a i :
  length (m_total s) = length (m_current s) ->
  let gated := ui32 (Z.land a (m_updatedMask s)) in
  m_current (PerformReset n s a) !!! i =
    (if commits n gated (m_current s) i then 0 else m_current s !!! i)
  /\ m_total (PerformReset n s a) !!! i =
    (if commits n gated (m_current s) i
     then Z.max (m_total s !!! i) (m_current s !!! i) else m_total s !!! i).
Proof.
  intros Hlen gated. unfold PerformReset. fold gated.
  destruct (nonzero gated) eqn:Hg.
  - state_simpl. apply PerformReseter_counters, Hlen.
  - apply nonzero_false in Hg. rewrite Hg, commits_0. auto.
Qed.

Lemma PerformReset_updatedMask n s a k :
  0 <= k < 32 ->
  Z.testbit (m_updatedMask (PerformReset n s a)) k =
  Z.testbit (m_updatedMask s) k && negb (Z.testbit a k).
Proof.
  intros Hk. unfold PerformReset.
  set (gated := ui32 (Z.land a (m_updatedMask s))).
  assert (Hbit : Z.testbit gated k = Z.testbit a k && Z.testbit (m_updatedMask s) k).
  { unfold gated. rewrite testbit_ui32, Z.land_spec by lia. reflexivity. }
  destruct (nonzero gated) eqn:Hg.
  - state_simpl.
    destruct (PerformReseter_frame n s gated) as (_ & -> & _ & _).
    rewrite Z.land_spec, testbit_ui32, Z.lnot_spec, Hbit by lia.
    destruct (Z.testbit a k), (Z.testbit (m_updatedMask s) k); reflexivity.
  - apply nonzero_false in Hg. rewrite Hg, Z.bits_0 in Hbit.
    destruct (Z.testbit a k), (Z.testbit (m_updatedMask s) k);
      try reflexivity; discriminate.
Qed.

Lemma gated_bit s a i :
  (i < MAX_RE_COUNT)%nat ->
  Z.testbit (ui32 (Z.land a (m_updatedMask s))) (Z.of_nat (MAX_RE_COUNT + i)) =
  Z.testbit a (Z.of_nat (MAX_RE_COUNT + i))
  && Z.testbit (m_updatedMask s) (Z.of_nat (MAX_RE_COUNT + i)).
Proof.
  intros Hi. unfold MAX_RE_COUNT in *.
  rewrite testbit_ui32, Z.land_spec by lia. reflexivity.
Qed.

End Halves.


(** ** The invariant holds at run time *)

Section Invariant.

Variable sc : CountingScanner.

Lemma gate_sound_Initialize : gate_sound (Initialize sc).
Proof.
  unfold gate_sound, Initialize. state_simpl. cbn [m_current m_total m_updatedMask].
  rewrite !length_replicate. repeat split; try reflexivity.
  - rewrite lookup_total_replicate_2 by assumption. lia.
  - rewrite lookup_total_replicate_2 by assumption. lia.
  - rewrite lookup_total_replicate_2 by assumption. lia.
  - rewrite lookup_total_replicate_2 by assumption. lia.
  - intros i Hi Hne. rewrite lookup_total_replicate_2 in Hne by assumption.
    congruence.
  - intros i Hi. apply lookup_total_replicate_2. lia.
Qed.

Lemma gate_sound_Next s c : gate_sound s -> gate_sound (fst (Next sc s c)).
Proof. intros H. exact H. Qed.

Lemma gate_sound_PerformIncrement s a :
  gate_sound s -> gate_sound (PerformIncrement OPTIMAL_RE_COUNT s a).
Proof.
  intros (Hc & Ht & Hr & Hg & Hz).
  destruct (PerformIncrement_frame OPTIMAL_RE_COUNT s a) as (_ & Htot & Hlen).
  unfold gate_sound. rewrite Htot, Hlen. split; [exact Hc|]. split; [exact Ht|].
  split; [|split].
  - intros i Hi. rewrite PerformIncrement_current.
    destruct (bumps _ _ _ _).
    + split; [apply ui32_range | apply (Hr i Hi)].
    + apply (Hr i Hi).
  - intros i Hi. rewrite PerformIncrement_current.
    rewrite PerformIncrement_updatedMask by (unfold MAX_RE_COUNT in *; lia).
    replace (Z.of_nat (MAX_RE_COUNT + i) - Z.of_nat MAX_RE_COUNT) with (Z.of_nat i) by lia.
    destruct (bumps _ _ _ _) eqn:Hb.
    + intros _. unfold bumps in Hb. apply andb_true_iff in Hb as [_ ->].
      apply orb_true_r.
    + intros Hne. rewrite (Hg i Hi Hne). reflexivity.
  - intros i Hi. rewrite PerformIncrement_current.
    unfold bumps. rewrite (bool_decide_eq_false_2 (i < OPTIMAL_RE_COUNT)%nat) by lia.
    cbn [andb]. apply Hz, Hi.
Qed.

Lemma gate_sound_PerformReset s a :
  gate_sound s -> gate_sound (PerformReset OPTIMAL_RE_COUNT s a).
Proof.
  intros (Hc & Ht & Hr & Hg & Hz).
  destruct (PerformReset_frame OPTIMAL_RE_COUNT s a) as (_ & Hlc & Hlt).
  assert (Hlen : length (m_total s) = length (m_current s)) by congruence.
  unfold gate_sound. rewrite Hlc, Hlt. split; [exact Hc|]. split; [exact Ht|].
  split; [|split].
  - intros i Hi.
    destruct (PerformReset_counters OPTIMAL_RE_COUNT s a i Hlen) as [-> ->].
    destruct (Hr i Hi) as [H1 H2]. destruct (commits _ _ _ _); lia.
  - intros i Hi.
    destruct (PerformReset_counters OPTIMAL_RE_COUNT s a i Hlen) as [-> _].
    rewrite PerformReset_updatedMask by (unfold MAX_RE_COUNT in *; lia).
    destruct (commits _ _ _ _) eqn:Hcm; [congruence|]. intros Hne.
    rewrite (Hg i Hi Hne). cbn [andb]. apply negb_true_iff.
    destruct (Z.testbit a (Z.of_nat (MAX_RE_COUNT + i))) eqn:Ha; [|reflexivity].
    exfalso. unfold commits in Hcm. rewrite gated_bit, Ha, (Hg i Hi Hne) in Hcm by assumption.
    rewrite (proj2 (nonzero_true _) Hne) in Hcm.
    rewrite (bool_decide_eq_true_2 (i < length (m_current s))%nat) in Hcm by lia.
    destruct (decide (i < OPTIMAL_RE_COUNT)%nat) as [Hlo|Hge].
    + rewrite (bool_decide_eq_true_2 _ Hlo) in Hcm. discriminate.
    + apply Hne, Hz. lia.
  - intros i Hi.
    destruct (PerformReset_counters OPTIMAL_RE_COUNT s a i Hlen) as [-> _].
    destruct (commits _ _ _ _); [reflexivity | apply Hz, Hi].
Qed.

Lemma gate_sound_TakeAction s a : gate_sound s -> gate_sound (TakeAction s a).
Proof.
  intros H. unfold TakeAction, TakeActionImpl.
  destruct (nonzero (Z.land a IncrementMask)), (nonzero (Z.land a ResetMask));
    auto using gate_sound_PerformIncrement, gate_sound_PerformReset.
Qed.

Lemma gate_sound_runtime_state s : runtime_state sc s -> gate_sound s.
Proof.
  induction 1;
    auto using gate_sound_Initialize, gate_sound_Next,
      gate_sound_PerformIncrement, gate_sound_PerformReset.
Qed.

Lemma gate_sound_step s ev : gate_sound s -> gate_sound (step sc s ev).
Proof.
  destruct ev; cbn [step]; auto using gate_sound_Next, gate_sound_TakeAction.
Qed.

Lemma run_snoc evs ev : run sc (evs ++ [ev]) = step sc (run sc evs) ev.
Proof. unfold run. rewrite fold_left_app. reflexivity. Qed.

Lemma gate_sound_run evs : gate_sound (run sc evs).
Proof.
  induction evs as [|ev evs IH] using rev_ind.
  - apply gate_sound_Initialize.
  - rewrite run_snoc. apply gate_sound_step, IH.
Qed.

Lemma runtime_state_TakeAction s a :
  runtime_state sc s -> runtime_state sc (TakeAction s a).
Proof.
  intros H. unfold TakeAction, TakeActionImpl.
  destruct (nonzero (Z.land a IncrementMask)) eqn:Hi,
           (nonzero (Z.land a ResetMask)) eqn:Hr;
    auto using rs_PerformIncrement, rs_PerformReset.
Qed.

Lemma runtime_state_run evs : runtime_state sc (run sc evs).
Proof.
  induction evs as [|ev evs IH] using rev_ind.
  - apply rs_Initialize.
  - rewrite run_snoc. destruct ev; cbn [step].
    + apply rs_Next, IH.
    + apply runtime_state_TakeAction, IH.
Qed.

End Invariant.


(** ** The reset gate on a sound state *)

Section Gate.

Implicit Types (s : State) (a : Z) (i j : nat).

Lemma commits_gate_sound s a i :
  gate_sound s -> (i < MAX_RE_COUNT)%nat ->
  Z.testbit a (Z.of_nat (MAX_RE_COUNT + i)) = true ->
  commits OPTIMAL_RE_COUNT (ui32 (Z.land a (m_updatedMask s))) (m_current s) i
  = nonzero (m_current s !!! i).
Proof.
  intros (Hc & _ & _ & Hg & Hz) Hi Ha. unfold commits.
  destruct (nonzero (m_current s !!! i)) eqn:Hnz; [|apply andb_false_r].
  apply nonzero_true in Hnz.
  rewrite gated_bit, Ha, (Hg i Hi Hnz) by assumption.
  rewrite (bool_decide_eq_true_2 (i < length (m_current s))%nat) by lia.
  destruct (decide (i < OPTIMAL_RE_COUNT)%nat) as [Hlo|Hge].
  - rewrite (bool_decide_eq_true_2 _ Hlo). reflexivity.
  - exfalso. apply Hnz, Hz. lia.
Qed.

Lemma commits_clear s a j :
  Z.testbit a (Z.of_nat (MAX_RE_COUNT + j)) = false ->
  commits OPTIMAL_RE_COUNT (ui32 (Z.land a (m_updatedMask s))) (m_current s) j
  = false.
Proof.
  intros Ha. unfold commits.
  destruct (decide (j < OPTIMAL_RE_COUNT)%nat) as [Hlo|Hge].
  - rewrite gated_bit, Ha by (unfold OPTIMAL_RE_COUNT, MAX_RE_COUNT in *; lia).
    cbn [andb]. rewrite andb_false_r. reflexivity.
  - rewrite (bool_decide_eq_false_2 _ Hge). reflexivity.
Qed.

(** Under a set reset bit, [TakeAction] is its increment half followed by
    [PerformReset]. *)
Lemma TakeAction_reset_half s a i :
  (i < MAX_RE_COUNT)%nat -> Z.testbit a (Z.of_nat (MAX_RE_COUNT + i)) = true ->
  TakeAction s a =
  PerformReset OPTIMAL_RE_COUNT
    (if nonzero (Z.land a IncrementMask)
     then PerformIncrement OPTIMAL_RE_COUNT s a else s) a.
Proof.
  intros Hi Ha. unfold TakeAction, TakeActionImpl.
  replace (nonzero (Z.land a ResetMask)) with true; [reflexivity|].
  symmetry. apply (testbit_nonzero _ (Z.of_nat (MAX_RE_COUNT + i))).
  rewrite Z.land_spec, Ha. unfold MAX_RE_COUNT in *.
  assert (Hcases : (i = 0 \/ i = 1 \/ i = 2 \/ i = 3 \/ i = 4 \/ i = 5 \/ i = 6
                    \/ i = 7 \/ i = 8 \/ i = 9 \/ i = 10 \/ i = 11 \/ i = 12
                    \/ i = 13 \/ i = 14 \/ i = 15)%nat) by lia.
  repeat (destruct Hcases as [->|Hcases]; [reflexivity|]). subst i. reflexivity.
Qed.

End Gate.

(** ** Single operations *)

(** C1, the code at the failing input: from the state [Initialize] produces,
    [TakeAction] with an action word whose bit 4 is set (Increment(4),
    [4 < MAX_RE_COUNT]) leaves [current[4]] at zero instead of
    incrementing it, and leaves the whole array [current] as it was:
    [TakeAction] instantiates [TakeActionImpl] with [OPTIMAL_RE_COUNT = 4],
    so only the counters 0..3 are ever incremented.  The gate bit of
    pattern 4 is set all the same. *)
Theorem TakeAction_skips_Increment_4 (sc : CountingScanner) :
  Z.testbit 16 4 = true
  /\ (4 < MAX_RE_COUNT)%nat
  /\ m_current (Initialize sc) !!! 4%nat = 0
  /\ m_current (TakeAction (Initialize sc) 16) !!! 4%nat = 0
  /\ m_current (TakeAction (Initialize sc) 16) = m_current (Initialize sc)
  /\ Z.testbit (m_updatedMask (TakeAction (Initialize sc) 16))
       (Z.of_nat (MAX_RE_COUNT + 4)) = true.
Proof. vm_compute. repeat split; lia. Qed.

(** What [TakeAction] does do: for a pattern index below
    [OPTIMAL_RE_COUNT] whose increment bit is set, the increment half adds
    one to [current[i]] (in 32-bit arithmetic), whatever the state. *)
Lemma PerformIncrement_low s a i :
  (i < OPTIMAL_RE_COUNT)%nat -> (i < length (m_current s))%nat ->
  Z.testbit a (Z.of_nat i) = true ->
  m_current (PerformIncrement OPTIMAL_RE_COUNT s a) !!! i
  = ui32 (m_current s !!! i + 1).
Proof.
  intros Hi Hl Ha. rewrite PerformIncrement_current. unfold bumps.
  rewrite Ha, !bool_decide_eq_true_2 by assumption. reflexivity.
Qed.

(** The counters from [OPTIMAL_RE_COUNT] on are out of [TakeAction]'s reach. *)
Lemma PerformIncrement_high s a i :
  (OPTIMAL_RE_COUNT <= i)%nat ->
  m_current (PerformIncrement OPTIMAL_RE_COUNT s a) !!! i = m_current s !!! i.
Proof.
  intros Hi. rewrite PerformIncrement_current. unfold bumps.
  rewrite (bool_decide_eq_false_2 (i < OPTIMAL_RE_COUNT)%nat) by lia. reflexivity.
Qed.

(** C2: for every runtime state [s] and every tracked pattern index [i],
    applying an action whose Reset(i) bit is set ([PerformReset], the reset
    half of [TakeAction]) sets [total[i]] to [max(total[i], current[i])] and
    [current[i]] to zero, and leaves [current[j]] and [total[j]] as they
    were for every [j] whose Reset(j) bit is clear. *)
Theorem PerformReset_commits_and_clears (sc : CountingScanner) (s : State)
    (a : Z) (i : nat) :
  runtime_state sc s ->
  (i < MAX_RE_COUNT)%nat ->
  Z.testbit a (Z.of_nat (MAX_RE_COUNT + i)) = true ->
  let s' := PerformReset OPTIMAL_RE_COUNT s a in
  m_total s' !!! i = Z.max (m_total s !!! i) (m_current s !!! i)
  /\ m_current s' !!! i = 0
  /\ forall j, Z.testbit a (Z.of_nat (MAX_RE_COUNT + j)) = false ->
       m_current s' !!! j = m_current s !!! j
       /\ m_total s' !!! j = m_total s !!! j.
Proof.
  intros Hrt Hi Ha s'. apply gate_sound_runtime_state in Hrt.
  pose proof Hrt as (Hc & Ht & Hr & _ & _).
  assert (Hlen : length (m_total s) = length (m_current s)) by congruence.
  assert (Hi' : forall j,
    m_current s' !!! j =
      (if commits OPTIMAL_RE_COUNT (ui32 (Z.land a (m_updatedMask s))) (m_current s) j
       then 0 else m_current s !!! j)
    /\ m_total s' !!! j =
      (if commits OPTIMAL_RE_COUNT (ui32 (Z.land a (m_updatedMask s))) (m_current s) j
       then Z.max (m_total s !!! j) (m_current s !!! j) else m_total s !!! j)).
  { intros j. apply PerformReset_counters, Hlen. }
  split; [|split].
  - rewrite (proj2 (Hi' i)), commits_gate_sound by assumption.
    destruct (nonzero (m_current s !!! i)) eqn:Hnz; [reflexivity|].
    apply nonzero_false in Hnz. rewrite Hnz. destruct (Hr i Hi). lia.
  - rewrite (proj1 (Hi' i)), commits_gate_sound by assumption.
    destruct (nonzero (m_current s !!! i)) eqn:Hnz; [reflexivity|].
    apply nonzero_false in Hnz. exact Hnz.
  - intros j Hj. rewrite (proj1 (Hi' j)), (proj2 (Hi' j)), commits_clear by assumption.
    split; reflexivity.
Qed.

Lemma PerformReset_commits_and_clears_witness :
  let s := run scanner0 [EvAction 1; EvAction 1] in
  runtime_state scanner0 s
  /\ (0 < MAX_RE_COUNT)%nat
  /\ Z.testbit 65536 (Z.of_nat (MAX_RE_COUNT + 0)) = true
  /\ m_total (PerformReset OPTIMAL_RE_COUNT s 65536) !!! 0%nat
     = Z.max (m_total s !!! 0%nat) (m_current s !!! 0%nat)
  /\ m_current (PerformReset OPTIMAL_RE_COUNT s 65536) !!! 0%nat = 0.
Proof.
  intros s.
  assert (Hrt : runtime_state scanner0 s) by apply runtime_state_run.
  assert (Hi : (0 < MAX_RE_COUNT)%nat) by (unfold MAX_RE_COUNT; lia).
  assert (Ha : Z.testbit 65536 (Z.of_nat (MAX_RE_COUNT + 0)) = true) by reflexivity.
  pose proof (PerformReset_commits_and_clears scanner0 s 65536 0 Hrt Hi Ha)
    as (Ht & Hc & _).
  repeat split; assumption.
Defined.

(** C3: for every state [s] and every pattern index [i], [Result(i)] is
    [max(current[i], total[i])]; in particular it is never below the run in
    progress, [current[i]], nor below the best completed run, [total[i]]. *)
Theorem Result_is_max (s : State) (i : nat) :
  Result s i = Z.max (m_current s !!! i) (m_total s !!! i)
  /\ m_current s !!! i <= Result s i
  /\ m_total s !!! i <= Result s i.
Proof. unfold Result. repeat split; lia. Qed.

(** C4: [RemapAction] maps the tag [Matched|Dead] to an action word with
    the increment bit set for every tracked pattern, the tag [Dead] alone to
    an action word with the reset bit set for every tracked pattern, and
    every other tag to the zero action word.  The scanner under
    construction tracks one pattern, so these words are Increment(0), the
    value [1], and Reset(0), the value [1 << MAX_RE_COUNT]. *)
Theorem RemapAction_first_pattern (tag : Z) (i : nat) :
  ((i < built_regexps)%nat ->
   Z.testbit (RemapAction (Z.lor Matched DeadFlag)) (Z.of_nat i) = true
   /\ Z.testbit (RemapAction DeadFlag) (Z.of_nat (MAX_RE_COUNT + i)) = true)
  /\ RemapAction (Z.lor Matched DeadFlag) = Z.shiftl 1 0
  /\ RemapAction DeadFlag = Z.shiftl 1 (Z.of_nat MAX_RE_COUNT)
  /\ (tag <> Z.lor Matched DeadFlag -> tag <> DeadFlag -> RemapAction tag = 0).
Proof.
  split.
  { unfold built_regexps. intros Hi. assert (i = O) as -> by lia.
    split; reflexivity. }
  split; [reflexivity|]. split; [reflexivity|].
  intros H1 H2. unfold RemapAction.
  destruct (Z.eqb_spec tag (Z.lor Matched DeadFlag)); [contradiction|].
  destruct (Z.eqb_spec tag DeadFlag); [contradiction|]. reflexivity.
Qed.

Lemma RemapAction_first_pattern_witness :
  (0 < built_regexps)%nat
  /\ Matched <> Z.lor Matched DeadFlag /\ Matched <> DeadFlag
  /\ Z.testbit (RemapAction (Z.lor Matched DeadFlag)) (Z.of_nat 0) = true
  /\ Z.testbit (RemapAction DeadFlag) (Z.of_nat (MAX_RE_COUNT + 0)) = true
  /\ RemapAction Matched = 0.
Proof.
  assert (Hi : (0 < built_regexps)%nat) by (unfold built_regexps; lia).
  assert (H1 : Matched <> Z.lor Matched DeadFlag) by (vm_compute; discriminate).
  assert (H2 : Matched <> DeadFlag) by (vm_compute; discriminate).
  split; [exact Hi|]. split; [exact H1|]. split; [exact H2|].
  destruct (RemapAction_first_pattern Matched 0) as (Hbits & _ & _ & Hother).
  destruct (Hbits Hi) as [Hinc Hres].
  split; [exact Hinc|]. split; [exact Hres|]. exact (Hother H1 H2).
Defined.

(** C8: for every counting scanner and every state, [Final], [Dead] and
    [CanStop] return false, also for every state a run reaches. *)
Theorem Final_Dead_CanStop_false (sc : CountingScanner) (s : State)
    (evs : list Event) :
  Final sc s = false /\ Dead sc s = false /\ CanStop sc s = false
  /\ Final sc (run sc evs) = false /\ Dead sc (run sc evs) = false
  /\ CanStop sc (run sc evs) = false.
Proof. repeat split. Qed.

(** ** The ungated resets, counter by counter *)

Section Ungated.

Implicit Types (s : State) (a : Z) (i : nat).

Lemma list_eq_lookup_total (l1 l2 : list Z) (n : nat) :
  length l1 = n -> length l2 = n ->
  (forall i, (i < n)%nat -> l1 !!! i = l2 !!! i) -> l1 = l2.
Proof.
  intros H1 H2 H. apply (list_eq_same_length l1 l2 n); [assumption..|].
  intros i x y Hi Hx Hy.
  rewrite <- (list_lookup_total_correct _ _ _ Hx), <- (list_lookup_total_correct _ _ _ Hy).
  apply H, Hi.
Qed.

Lemma ResetMask_bit a i :
  (i < MAX_RE_COUNT)%nat -> Z.testbit a (Z.of_nat (MAX_RE_COUNT + i)) = true ->
  nonzero (Z.land a ResetMask) = true.
Proof.
  intros Hi Ha. apply (testbit_nonzero _ (Z.of_nat (MAX_RE_COUNT + i))).
  rewrite Z.land_spec, Ha. unfold MAX_RE_COUNT in *.
  assert (Hcases : (i = 0 \/ i = 1 \/ i = 2 \/ i = 3 \/ i = 4 \/ i = 5 \/ i = 6
                    \/ i = 7 \/ i = 8 \/ i = 9 \/ i = 10 \/ i = 11 \/ i = 12
                    \/ i = 13 \/ i = 14 \/ i = 15)%nat) by lia.
  repeat (destruct Hcases as [->|Hcases]; [reflexivity|]). subst i. reflexivity.
Qed.

(** Folding the conditional [Reset_spec] over a list of distinct indices. *)
Lemma resets_fold (a : Z) (idx : list nat) s i :
  NoDup idx -> length (m_total s) = length (m_current s) ->
  m_current (fold_left (reset_if a) idx s) !!! i =
    (if bool_decide (i ∈ idx) && bool_decide (i < length (m_current s))%nat
        && Z.testbit a (Z.of_nat (MAX_RE_COUNT + i))
     then 0 else m_current s !!! i)
  /\ m_total (fold_left (reset_if a) idx s) !!! i =
    (if bool_decide (i ∈ idx) && bool_decide (i < length (m_current s))%nat
        && Z.testbit a (Z.of_nat (MAX_RE_COUNT + i))
     then Z.max (m_total s !!! i) (m_current s !!! i) else m_total s !!! i)
  /\ length (m_current (fold_left (reset_if a) idx s)) = length (m_current s)
  /\ length (m_total (fold_left (reset_if a) idx s)) = length (m_total s).
Proof.
  intros Hnd. revert s. induction Hnd as [|x idx Hx Hnd IH]; intros s Hlen.
  { cbn [fold_left]. rewrite bool_decide_eq_false_2 by apply not_elem_of_nil.
    auto. }
  cbn [fold_left].
  assert (Hlen' : length (m_total (reset_if a s x)) = length (m_current (reset_if a s x))).
  { unfold reset_if. destruct (Z.testbit a (Z.of_nat (MAX_RE_COUNT + x))); [|exact Hlen].
    unfold Reset_spec. state_simpl. rewrite !length_insert. exact Hlen. }
  destruct (IH (reset_if a s x) Hlen') as (Hc & Ht & Hlc & Hlt).
  rewrite Hc, Ht, Hlc, Hlt. clear Hc Ht Hlc Hlt IH Hlen'.
  unfold reset_if.
  destruct (Z.testbit a (Z.of_nat (MAX_RE_COUNT + x))) eqn:Hb.
  - unfold Reset_spec. state_simpl.
    rewrite !length_insert, !list_lookup_total_insert, Hlen.
    destruct (decide (i = x)) as [->|Hne].
    + rewrite (bool_decide_eq_false_2 (x ∈ idx)) by assumption.
      rewrite (bool_decide_eq_true_2 (x ∈ x :: idx)) by apply list_elem_of_here.
      rewrite Hb. cbn [andb]. rewrite andb_true_r.
      repeat split; index_cases.
    + assert (Hiff : bool_decide (i ∈ x :: idx) = bool_decide (i ∈ idx)).
      { apply bool_decide_ext. rewrite elem_of_cons. naive_solver. }
      rewrite Hiff. rewrite !decide_False by naive_solver. auto.
  - destruct (decide (i = x)) as [->|Hne].
    + rewrite (bool_decide_eq_false_2 (x ∈ idx)) by assumption.
      rewrite Hb, !andb_false_r. auto.
    + assert (Hiff : bool_decide (i ∈ x :: idx) = bool_decide (i ∈ idx)).
      { apply bool_decide_ext. rewrite elem_of_cons. naive_solver. }
      rewrite Hiff. auto.
Qed.

Lemma resets_spec_counters s a i :
  length (m_current s) = MAX_RE_COUNT -> length (m_total s) = MAX_RE_COUNT ->
  m_current (resets_spec s a) !!! i =
    (if bool_decide (i < MAX_RE_COUNT)%nat && Z.testbit a (Z.of_nat (MAX_RE_COUNT + i))
     then 0 else m_current s !!! i)
  /\ m_total (resets_spec s a) !!! i =
    (if bool_decide (i < MAX_RE_COUNT)%nat && Z.testbit a (Z.of_nat (MAX_RE_COUNT + i))
     then Z.max (m_total s !!! i) (m_current s !!! i) else m_total s !!! i)
  /\ length (m_current (resets_spec s a)) = MAX_RE_COUNT
  /\ length (m_total (resets_spec s a)) = MAX_RE_COUNT.
Proof.
  intros Hc Ht. unfold resets_spec.
  destruct (resets_fold a (seq 0 MAX_RE_COUNT) s i) as (H1 & H2 & H3 & H4).
  { apply NoDup_seq. }
  { congruence. }
  rewrite H1, H2, H3, H4, Hc.
  assert (Hiff : bool_decide (i ∈ seq 0 MAX_RE_COUNT) = bool_decide (i < MAX_RE_COUNT)%nat).
  { apply bool_decide_ext. rewrite elem_of_seq. lia. }
  rewrite Hiff, andb_diag. auto.
Qed.

Lemma reset_half_ungated s s' a :
  gate_sound s -> m_current s = m_current s' -> m_total s = m_total s' ->
  m_current (reset_half s a) = m_current (resets_spec s' a)
  /\ m_total (reset_half s a) = m_total (resets_spec s' a).
Proof.
  intros Hgs Hcur Htot. pose proof Hgs as (Hc & Ht & Hr & _ & _).
  assert (Hlen : length (m_total s) = length (m_current s)) by congruence.
  assert (Hc' : length (m_current s') = MAX_RE_COUNT) by congruence.
  assert (Ht' : length (m_total s') = MAX_RE_COUNT) by congruence.
  assert (Hpt : forall i, (i < MAX_RE_COUNT)%nat ->
    m_current (reset_half s a) !!! i = m_current (resets_spec s' a) !!! i
    /\ m_total (reset_half s a) !!! i = m_total (resets_spec s' a) !!! i).
  { intros i Hi.
    destruct (resets_spec_counters s' a i Hc' Ht') as (-> & -> & _ & _).
    rewrite (bool_decide_eq_true_2 _ Hi). cbn [andb]. rewrite <- Hcur, <- Htot.
    unfold reset_half.
    destruct (Z.testbit a (Z.of_nat (MAX_RE_COUNT + i))) eqn:Ha.
    - rewrite (ResetMask_bit a i Hi Ha).
      destruct (PerformReset_counters OPTIMAL_RE_COUNT s a i Hlen) as [-> ->].
      rewrite commits_gate_sound by assumption.
      destruct (nonzero (m_current s !!! i)) eqn:Hnz; [auto|].
      apply nonzero_false in Hnz. rewrite Hnz. destruct (Hr i Hi). split; lia.
    - destruct (nonzero (Z.land a ResetMask)); [|auto].
      destruct (PerformReset_counters OPTIMAL_RE_COUNT s a i Hlen) as [-> ->].
      rewrite commits_clear by assumption. auto. }
  assert (Hlens : length (m_current (reset_half s a)) = MAX_RE_COUNT
                  /\ length (m_total (reset_half s a)) = MAX_RE_COUNT).
  { unfold reset_half. destruct (nonzero _); [|auto].
    destruct (PerformReset_frame OPTIMAL_RE_COUNT s a) as (_ & -> & ->). auto. }
  destruct (resets_spec_counters s' a 0 Hc' Ht') as (_ & _ & Hlc & Hlt).
  split; apply (list_eq_lookup_total _ _ MAX_RE_COUNT);
    try tauto; intros i Hi; apply (Hpt i Hi).
Qed.

Lemma TakeAction_halves s a : TakeAction s a = reset_half (increment_half s a) a.
Proof. reflexivity. Qed.

Lemma TakeAction_ungated_halves s a :
  TakeAction_ungated s a = resets_spec (increment_half s a) a.
Proof. reflexivity. Qed.

Lemma gate_sound_increment_half s a : gate_sound s -> gate_sound (increment_half s a).
Proof.
  intros H. unfold increment_half. destruct (nonzero _); [|exact H].
  apply gate_sound_PerformIncrement, H.
Qed.

Lemma increment_half_counters s s' a :
  length (m_current s) = MAX_RE_COUNT ->
  m_current s = m_current s' -> m_total s = m_total s' ->
  m_current (increment_half s a) = m_current (increment_half s' a)
  /\ m_total (increment_half s a) = m_total (increment_half s' a).
Proof.
  intros Hc Hcur Htot. unfold increment_half.
  destruct (nonzero (Z.land a IncrementMask)); [|auto].
  destruct (PerformIncrement_frame OPTIMAL_RE_COUNT s a) as (_ & -> & Hl).
  destruct (PerformIncrement_frame OPTIMAL_RE_COUNT s' a) as (_ & -> & Hl').
  split; [|exact Htot].
  apply (list_eq_lookup_total _ _ MAX_RE_COUNT); [congruence..|].
  intros i _. rewrite !PerformIncrement_current, Hcur. reflexivity.
Qed.

End Ungated.

(** ** Runs from the initial state *)

Section Runs.

Variable sc : CountingScanner.

Implicit Types (s : State) (a : Z) (i : nat) (evs : list Event) (ev : Event).

Lemma run_ungated_snoc evs ev :
  run_ungated sc (evs ++ [ev]) = step_ungated sc (run_ungated sc evs) ev.
Proof. unfold run_ungated. rewrite fold_left_app. reflexivity. Qed.

Lemma run_ungated_counters evs :
  m_current (run sc evs) = m_current (run_ungated sc evs)
  /\ m_total (run sc evs) = m_total (run_ungated sc evs).
Proof.
  induction evs as [|ev evs [IHc IHt]] using rev_ind.
  { split; reflexivity. }
  rewrite run_snoc, run_ungated_snoc.
  destruct ev as [c|a]; cbn [step step_ungated].
  - split; assumption.
  - rewrite TakeAction_halves, TakeAction_ungated_halves.
    pose proof (gate_sound_run sc evs) as Hgs.
    destruct (increment_half_counters (run sc evs) (run_ungated sc evs) a)
      as [Hc Ht]; [apply Hgs | assumption..|].
    apply reset_half_ungated; [|assumption..].
    apply gate_sound_increment_half, Hgs.
Qed.

Lemma Result_increment_half s a i :
  gate_sound s -> m_current s !!! i <> 2 ^ 32 - 1 ->
  Result s i <= Result (increment_half s a) i.
Proof.
  intros (Hc & _ & Hr & _ & _) Hmax. unfold increment_half.
  destruct (nonzero (Z.land a IncrementMask)); [|lia]. unfold Result.
  destruct (PerformIncrement_frame OPTIMAL_RE_COUNT s a) as (_ & -> & _).
  rewrite PerformIncrement_current.
  destruct (bumps _ _ _ _) eqn:Hb; [|lia].
  unfold bumps in Hb. apply andb_true_iff in Hb as [Hb _].
  apply andb_true_iff in Hb as [_ Hb]. apply bool_decide_eq_true_1 in Hb.
  destruct (Hr i) as [[H0 H1] _]; [lia|].
  unfold ui32. rewrite Z.mod_small by lia. lia.
Qed.

Lemma Result_reset_half s a i :
  gate_sound s -> Result s i <= Result (reset_half s a) i.
Proof.
  intros (Hc & Ht & _). unfold reset_half.
  destruct (nonzero (Z.land a ResetMask)); [|lia]. unfold Result.
  destruct (PerformReset_counters OPTIMAL_RE_COUNT s a i) as [-> ->]; [congruence|].
  destruct (commits _ _ _ _); lia.
Qed.

Lemma Result_step s ev i :
  gate_sound s -> m_current s !!! i <> 2 ^ 32 - 1 ->
  Result s i <= Result (step sc s ev) i.
Proof.
  intros Hgs Hmax. destruct ev as [c|a]; cbn [step].
  - unfold Result. cbn. lia.
  - rewrite TakeAction_halves.
    etransitivity; [apply (Result_increment_half s a i Hgs Hmax)|].
    apply Result_reset_half, gate_sound_increment_half, Hgs.
Qed.

(** A counter is at most the number of steps taken, as long as that number
    fits in 32 bits. *)
Lemma counters_bounded evs i :
  Z.of_nat (length evs) < 2 ^ 32 -> (i < MAX_RE_COUNT)%nat ->
  m_current (run sc evs) !!! i <= Z.of_nat (length evs).
Proof.
  induction evs as [|ev evs IH] using rev_ind; intros Hlen Hi.
  { unfold run. cbn [fold_left Initialize m_current].
    rewrite lookup_total_replicate_2 by assumption. cbn. lia. }
  rewrite length_app in Hlen |- *. cbn [length] in Hlen |- *.
  specialize (IH ltac:(lia) Hi). rewrite run_snoc.
  pose proof (gate_sound_run sc evs) as Hgs. set (s := run sc evs) in *.
  destruct ev as [c|a]; cbn [step].
  { cbn. lia. }
  rewrite TakeAction_halves.
  assert (Hinc : m_current (increment_half s a) !!! i <= m_current s !!! i + 1).
  { unfold increment_half. destruct (nonzero (Z.land a IncrementMask)); [|lia].
    rewrite PerformIncrement_current. destruct (bumps _ _ _ _); [|lia].
    destruct Hgs as (_ & _ & Hr & _). destruct (Hr i Hi) as [[H0 H1] _].
    unfold ui32. rewrite Z.mod_small by lia. lia. }
  pose proof (gate_sound_increment_half s a Hgs) as (Hc1 & Ht1 & Hr1 & _).
  unfold reset_half. destruct (nonzero (Z.land a ResetMask)); [|lia].
  destruct (PerformReset_counters OPTIMAL_RE_COUNT (increment_half s a) a i) as [-> _];
    [congruence|].
  destruct (commits _ _ _ _); lia.
Qed.

(** For the patterns [TakeAction] handles, and while no counter can have
    wrapped around, the gate bit is set only when the counter is not zero. *)
Lemma gate_exact_low evs i :
  Z.of_nat (length evs) < 2 ^ 32 -> (i < OPTIMAL_RE_COUNT)%nat ->
  Z.testbit (m_updatedMask (run sc evs)) (Z.of_nat (MAX_RE_COUNT + i)) = true ->
  m_current (run sc evs) !!! i <> 0.
Proof.
  induction evs as [|ev evs IH] using rev_ind; intros Hlen Hi.
  { unfold run. cbn [fold_left Initialize m_updatedMask]. rewrite Z.bits_0.
    discriminate. }
  rewrite length_app in Hlen. cbn [length] in Hlen.
  specialize (IH ltac:(lia) Hi). rewrite run_snoc.
  assert (Hi16 : (i < MAX_RE_COUNT)%nat)
    by (unfold OPTIMAL_RE_COUNT, MAX_RE_COUNT in *; lia).
  pose proof (counters_bounded evs i ltac:(lia) Hi16) as Hbound.
  pose proof (gate_sound_run sc evs) as Hgs. set (s := run sc evs) in *.
  destruct ev as [c|a]; cbn [step].
  { exact IH. }
  rewrite TakeAction_halves.
  assert (Hinc : Z.testbit (m_updatedMask (increment_half s a))
                   (Z.of_nat (MAX_RE_COUNT + i)) = true ->
                 m_current (increment_half s a) !!! i <> 0).
  { unfold increment_half. destruct (nonzero (Z.land a IncrementMask)); [|exact IH].
    rewrite PerformIncrement_updatedMask by (unfold MAX_RE_COUNT in *; lia).
    replace (Z.of_nat (MAX_RE_COUNT + i) - Z.of_nat MAX_RE_COUNT) with (Z.of_nat i) by lia.
    rewrite PerformIncrement_current. unfold bumps.
    destruct Hgs as (Hc & _ & Hr & _). destruct (Hr i Hi16) as [[H0 H1] _].
    rewrite !bool_decide_eq_true_2 by lia. cbn [andb].
    destruct (Z.testbit a (Z.of_nat i)).
    - intros _. unfold ui32. rewrite Z.mod_small by lia. lia.
    - rewrite orb_false_r. exact IH. }
  pose proof (gate_sound_increment_half s a Hgs) as (Hc1 & Ht1 & _).
  unfold reset_half. destruct (nonzero (Z.land a ResetMask)); [|exact Hinc].
  rewrite PerformReset_updatedMask by (unfold MAX_RE_COUNT in *; lia).
  destruct (PerformReset_counters OPTIMAL_RE_COUNT (increment_half s a) a i) as [-> _];
    [congruence|].
  intros Hb. apply andb_true_iff in Hb as [Hb Ha]. apply negb_true_iff in Ha.
  rewrite commits_clear by assumption. apply Hinc, Hb.
Qed.

End Runs.

(** [TakeAction] with the action word Increment(0). *)
Lemma TakeAction_Increment_0 (s : State) :
  TakeAction s 1 =
  mkState (m_state s) (<[0%nat := ui32 (m_current s !!! 0%nat + 1)]> (m_current s))
    (m_total s) (Z.lor (m_updatedMask s) 65536).
Proof. reflexivity. Qed.

(** [n] times Increment(0) from the initial state count to [n]. *)
Lemma run_Increment_0 (sc : CountingScanner) (n : nat) :
  Z.of_nat n < 2 ^ 32 ->
  m_current (run sc (repeat (EvAction 1) n)) !!! 0%nat = Z.of_nat n
  /\ m_total (run sc (repeat (EvAction 1) n)) !!! 0%nat = 0.
Proof.
  induction n as [|n IH]; intros Hn.
  { split; reflexivity. }
  destruct IH as [IHc IHt]; [lia|].
  cbn [repeat]. rewrite repeat_cons, run_snoc. cbn [step].
  rewrite TakeAction_Increment_0.
  pose proof (gate_sound_run sc (repeat (EvAction 1) n)) as (Hc & _).
  cbn [m_current m_total]. rewrite list_lookup_total_insert_eq, IHc
    by (rewrite Hc; unfold MAX_RE_COUNT; lia).
  split; [|exact IHt]. unfold ui32. rewrite Z.mod_small by lia. lia.
Qed.

(** C5, the code at the failing input: after [Initialize] and one
    [TakeAction] with an action word whose bit 4 is set, the bit of
    [m_updatedMask] the reset gate consults for pattern 4 is set while
    [current[4]] is zero, so [m_updatedMask] does not record exactly the
    counters that are not zero. *)
Theorem updatedMask_set_for_zero_counter (sc : CountingScanner) :
  Z.testbit (m_updatedMask (run sc [EvAction 16])) (Z.of_nat (MAX_RE_COUNT + 4)) = true
  /\ m_current (run sc [EvAction 16]) !!! 4%nat = 0
  /\ ~ (Z.testbit (m_updatedMask (run sc [EvAction 16])) (Z.of_nat (MAX_RE_COUNT + 4)) = true
        <-> 0 < m_current (run sc [EvAction 16]) !!! 4%nat).
Proof.
  assert (H1 : Z.testbit (m_updatedMask (run sc [EvAction 16]))
                 (Z.of_nat (MAX_RE_COUNT + 4)) = true) by reflexivity.
  assert (H2 : m_current (run sc [EvAction 16]) !!! 4%nat = 0) by reflexivity.
  split; [exact H1|]. split; [exact H2|].
  rewrite H2. intros [H _]. specialize (H H1). lia.
Qed.

(** C6: for every sequence of characters and actions applied from the state
    [Initialize] produces, the arrays [current] and [total], and so every
    [Result(i)], are the same as under the variant that applies every set
    reset bit with no [m_updatedMask] gate. *)
Theorem reset_gate_unobservable (sc : CountingScanner) (evs : list Event) :
  m_current (run sc evs) = m_current (run_ungated sc evs)
  /\ m_total (run sc evs) = m_total (run_ungated sc evs)
  /\ forall i, Result (run sc evs) i = Result (run_ungated sc evs) i.
Proof.
  destruct (run_ungated_counters sc evs) as [Hc Ht].
  split; [exact Hc|]. split; [exact Ht|].
  intros i. unfold Result. rewrite Hc, Ht. reflexivity.
Qed.

(** C7 as stated fails: the counters are 32-bit.  After [2^32 - 1] actions
    Increment(0) from the initial state [current[0]] is [2^32 - 1], and one
    more Increment(0) wraps it to zero: [Result(0)] drops. *)
Lemma Result_drops_on_wraparound :
  Result (run scanner0 (repeat (EvAction 1) (Z.to_nat (2 ^ 32 - 1)) ++ [EvAction 1])) 0
  < Result (run scanner0 (repeat (EvAction 1) (Z.to_nat (2 ^ 32 - 1)))) 0.
Proof.
  assert (HN : Z.of_nat (Z.to_nat (2 ^ 32 - 1)) = 2 ^ 32 - 1) by (apply Z2Nat.id; lia).
  generalize dependent (Z.to_nat (2 ^ 32 - 1)). intros N HN.
  destruct (run_Increment_0 scanner0 N) as [Hc Ht]; [lia|].
  pose proof (gate_sound_run scanner0 (repeat (EvAction 1) N)) as (Hl & _).
  rewrite run_snoc. cbn [step]. rewrite TakeAction_Increment_0.
  unfold Result. cbn [m_current m_total].
  rewrite list_lookup_total_insert_eq by (rewrite Hl; unfold MAX_RE_COUNT; lia).
  rewrite Hc, Ht, HN. unfold ui32.
  replace (2 ^ 32 - 1 + 1) with (2 ^ 32) by lia. rewrite Z.mod_same by lia. lia.
Qed.

(** C7, amended: for every state produced by [Initialize] followed by any
    sequence of [Next] and [TakeAction] steps and every pattern index [i],
    one further step does not decrease [Result(i)], provided [current[i]]
    is not at its 32-bit maximum [2^32 - 1] before that step. *)
Theorem Result_monotone_below_wraparound (sc : CountingScanner)
    (evs : list Event) (ev : Event) (i : nat) :
  m_current (run sc evs) !!! i <> 2 ^ 32 - 1 ->
  Result (run sc evs) i <= Result (run sc (evs ++ [ev])) i.
Proof.
  intros Hmax. rewrite run_snoc. apply Result_step; [apply gate_sound_run | exact Hmax].
Qed.

Lemma Result_monotone_below_wraparound_witness :
  m_current (run scanner0 [EvAction 1; EvAction 1]) !!! 0%nat <> 2 ^ 32 - 1
  /\ Result (run scanner0 [EvAction 1; EvAction 1]) 0
     <= Result (run scanner0 ([EvAction 1; EvAction 1] ++ [EvAction 65536])) 0.
Proof.
  assert (H : m_current (run scanner0 [EvAction 1; EvAction 1]) !!! 0%nat <> 2 ^ 32 - 1)
    by (vm_compute; discriminate).
  split; [exact H|].
  exact (Result_monotone_below_wraparound scanner0 [EvAction 1; EvAction 1]
           (EvAction 65536) 0 H).
Defined.

(** In particular [Result(i)] does not decrease along the first [2^32 - 1]
    steps of any run. *)
Lemma Result_monotone_short_run (sc : CountingScanner) (evs : list Event)
    (ev : Event) (i : nat) :
  Z.of_nat (length evs) < 2 ^ 32 - 1 -> (i < MAX_RE_COUNT)%nat ->
  Result (run sc evs) i <= Result (run sc (evs ++ [ev])) i.
Proof.
  intros Hlen Hi. rewrite run_snoc. apply Result_step; [apply gate_sound_run|].
  pose proof (counters_bounded sc evs i ltac:(lia) Hi). lia.
Qed.

(** ** The frame of [Next] and [TakeAction] *)

Lemma TakeAction_m_state (s : State) (a : Z) : m_state (TakeAction s a) = m_state s.
Proof.
  rewrite TakeAction_halves. unfold reset_half, increment_half.
  destruct (nonzero (Z.land a ResetMask)), (nonzero (Z.land a IncrementMask));
    rewrite ?(proj1 (PerformReset_frame _ _ _)), ?(proj1 (PerformIncrement_frame _ _ _));
    reflexivity.
Qed.

Lemma store_set_other (st : Store) (l l' : loc) (v : State) :
  l' <> l -> store_set st l v l' = st l'.
Proof. intros H. unfold store_set. rewrite decide_False by assumption. reflexivity. Qed.

Lemma store_set_same (st : Store) (l : loc) (v : State) : store_set st l v l = v.
Proof. unfold store_set. rewrite decide_True by reflexivity. reflexivity. Qed.

(** Passing one object for both [current] and [n] is the two-argument
    [Next] on that object. *)
Lemma Next_into_alias (sc : CountingScanner) (st : Store) (n : loc) (c : Z) :
  (Next_into sc st n n c).1 n = (Next sc (st n) c).1
  /\ (Next_into sc st n n c).2 = (Next sc (st n) c).2.
Proof.
  unfold Next_into. rewrite store_set_same.
  destruct (Next sc (st n) c) as [n' a]. cbn [fst snd].
  rewrite store_set_same. auto.
Qed.

(** C10 as stated fails: the three-argument [Next(current, n, c)] does not
    leave its first argument as it was when the caller passes one object
    for both references.  On the initial state of a scanner whose
    transitions move on by eight, the object's [m_state] is 4096 before
    the call and 4104 after it. *)
Lemma Next_into_alias_writes_current :
  let st : Store := fun _ => Initialize scanner8 in
  (Next_into scanner8 st 0%nat 0%nat 97).1 0%nat <> st 0%nat
  /\ m_state (st 0%nat) = 4096
  /\ m_state ((Next_into scanner8 st 0%nat 0%nat 97).1 0%nat) = 4104.
Proof.
  intros st.
  assert (H1 : m_state (st 0%nat) = 4096) by reflexivity.
  assert (H2 : m_state ((Next_into scanner8 st 0%nat 0%nat 97).1 0%nat) = 4104)
    by reflexivity.
  split; [|split; assumption].
  intros Heq. rewrite Heq, H1 in H2. discriminate.
Qed.

(** C10, amended: [Next(s, c)] changes no field but [m_state];
    [TakeAction(s, a)] leaves [m_state] as it was; the three-argument
    [Next(current, n, c)] writes the object [n] only, so it leaves
    [current] as it was whenever [current] and [n] are different objects,
    [n] becoming what [Next] makes of [current]; called with one object
    for both, it advances that object as the two-argument [Next] does. *)
Theorem Next_TakeAction_frame (sc : CountingScanner) (s : State) (c a : Z)
    (st : Store) (current n : loc) :
  (m_current (Next sc s c).1 = m_current s
   /\ m_total (Next sc s c).1 = m_total s
   /\ m_updatedMask (Next sc s c).1 = m_updatedMask s)
  /\ m_state (TakeAction s a) = m_state s
  /\ (current <> n ->
      (Next_into sc st current n c).1 current = st current
      /\ (Next_into sc st current n c).1 n = (Next sc (st current) c).1
      /\ (Next_into sc st current n c).2 = (Next sc (st current) c).2)
  /\ (Next_into sc st n n c).1 n = (Next sc (st n) c).1
  /\ (Next_into sc st n n c).2 = (Next sc (st n) c).2.
Proof.
  split; [repeat split|]. split; [apply TakeAction_m_state|].
  split; [|apply Next_into_alias].
  intros Hne. unfold Next_into. rewrite store_set_same.
  destruct (Next sc (st current) c) as [n' act]. cbn [fst snd].
  rewrite store_set_same, !store_set_other by assumption. auto.
Qed.

Lemma Next_TakeAction_frame_witness :
  let st : Store := fun _ => run scanner8 [EvAction 1] in
  (0 <> 1)%nat
  /\ (Next_into scanner8 st 0%nat 1%nat 97).1 0%nat = st 0%nat
  /\ m_state (st 0%nat) = 4096
  /\ m_state ((Next_into scanner8 st 0%nat 1%nat 97).1 1%nat) = 4104.
Proof.
  intros st.
  assert (Hne : (0 <> 1)%nat) by discriminate.
  split; [exact Hne|].
  split; [|split; reflexivity].
  exact (proj1 (proj1 (proj2 (proj2 (Next_TakeAction_frame scanner8 (st 0%nat) 97 1 st
                                       0%nat 1%nat))) Hne)).
Defined.

(** ** Gluing *)

Module PireFacts.

Import Pire.

Section Product.

Variables a b : Scanner.

Implicit Types (seen : list (nat * nat)) (rows : list (list nat)) (p : nat * nat).

Lemma exceeds_0 count : exceeds 0 count = false.
Proof. reflexivity. Qed.

Lemma exceeds_false maxSize count :
  maxSize <> O -> exceeds maxSize count = false -> (count <= maxSize)%nat.
Proof.
  intros Hm. unfold exceeds.
  destruct (Nat.eqb_spec maxSize 0); [contradiction|]. cbn [negb andb].
  intros H. apply Nat.ltb_ge in H. exact H.
Qed.

(** Up to the stop, the limited construction is the unlimited one. *)
Lemma explore_limit maxSize fuel seen rows :
  explore a b maxSize fuel seen rows = None
  \/ explore a b maxSize fuel seen rows = explore a b 0 fuel seen rows.
Proof.
  revert seen rows. induction fuel as [|fuel IH]; intros seen rows; cbn [explore].
  { right. reflexivity. }
  destruct (seen !! length rows) as [p|]; [|right; reflexivity].
  destruct (emit_row a b p seen) as [seen' row]. rewrite exceeds_0.
  destruct (exceeds maxSize (length seen')); [left; reflexivity | apply IH].
Qed.

(** What the limited construction returns stays within the limit. *)
Lemma explore_within maxSize fuel seen rows seen' rows' :
  maxSize <> O -> (length seen <= maxSize)%nat ->
  explore a b maxSize fuel seen rows = Some (seen', rows') ->
  (length seen' <= maxSize)%nat.
Proof.
  intros Hm. revert seen rows.
  induction fuel as [|fuel IH]; intros seen rows Hlen; cbn [explore].
  { intros [= <- _]. exact Hlen. }
  destruct (seen !! length rows) as [p|]; [|intros [= <- _]; exact Hlen].
  destruct (emit_row a b p seen) as [seen1 row].
  destruct (exceeds maxSize (length seen1)) eqn:Hex; [discriminate|].
  apply IH. apply exceeds_false; assumption.
Qed.

Lemma explore_unlimited fuel seen rows : explore a b 0 fuel seen rows <> None.
Proof.
  revert seen rows. induction fuel as [|fuel IH]; intros seen rows; cbn [explore].
  { discriminate. }
  destruct (seen !! length rows) as [p|]; [|discriminate].
  destruct (emit_row a b p seen) as [seen' row]. rewrite exceeds_0. apply IH.
Qed.

(** *** The worklist runs to its end *)

Lemma next_state_value (sc : Scanner) (s c : nat) :
  next_state sc s c ∈ state_values sc.
Proof.
  unfold next_state, state_values.
  destruct (transitions sc !! s) as [row|] eqn:Hrow.
  - rewrite (list_lookup_total_correct _ _ _ Hrow).
    destruct (row !! c) as [v|] eqn:Hv.
    + rewrite (list_lookup_total_correct _ _ _ Hv).
      apply elem_of_cons. right. apply elem_of_cons. right.
      apply list_elem_of_In, in_concat. exists row.
      split; apply list_elem_of_In; eapply list_elem_of_lookup_2; eassumption.
    + rewrite list_lookup_total_alt, Hv.
      apply elem_of_cons. right. apply list_elem_of_here.
  - rewrite (list_lookup_total_alt (transitions sc)), Hrow.
    replace (default inhabitant None !!! c) with O by (destruct c; reflexivity).
    apply elem_of_cons. right. apply list_elem_of_here.
Qed.

Lemma index_of_None p seen : index_of p seen = None -> p ∉ seen.
Proof.
  induction seen as [|q seen IH]; cbn [index_of]; intros H.
  { apply not_elem_of_nil. }
  destruct (decide (p = q)); [discriminate|].
  destruct (index_of p seen); [discriminate|].
  apply not_elem_of_cons. split; [assumption | apply IH; reflexivity].
Qed.

Lemma intern_known p seen :
  p.1 ∈ state_values a -> p.2 ∈ state_values b ->
  known_states a b seen ->
  known_states a b (intern p seen).1 /\ (length seen <= length (intern p seen).1)%nat.
Proof.
  intros H1 H2 [Hnd Hin]. unfold intern.
  destruct (index_of p seen) eqn:Hidx; cbn [fst].
  { split; [split; assumption | lia]. }
  apply index_of_None in Hidx. split; [split|].
  - apply NoDup_app. split; [assumption|]. split.
    + intros q Hq Hq'. apply list_elem_of_singleton in Hq'. subst q. contradiction.
    + apply NoDup_singleton.
  - intros q Hq. apply elem_of_app in Hq as [Hq|Hq]; [apply Hin, Hq|].
    apply list_elem_of_singleton in Hq. subst q. auto.
  - rewrite length_app. cbn [length]. lia.
Qed.

Lemma emit_row_fold p (classes : list (nat * nat)) (acc : list (nat * nat) * list nat) :
  known_states a b acc.1 ->
  let acc' :=
    fold_left
      (fun (acc : list (nat * nat) * list nat) (c : nat * nat) =>
         let '(id_seen, id) :=
           intern (next_state a p.1 c.1, next_state b p.2 c.2) acc.1 in
         (id_seen, acc.2 ++ [id]))
      classes acc in
  known_states a b acc'.1 /\ (length acc.1 <= length acc'.1)%nat.
Proof.
  revert acc. induction classes as [|c classes IH]; intros acc Hk; cbn [fold_left].
  { split; [assumption | lia]. }
  destruct (intern_known (next_state a p.1 c.1, next_state b p.2 c.2) acc.1)
    as [Hk' Hlen]; [apply next_state_value..|assumption|].
  destruct (intern (next_state a p.1 c.1, next_state b p.2 c.2) acc.1)
    as [id_seen id] eqn:Hint.
  cbn [fst] in Hk', Hlen.
  destruct (IH (id_seen, acc.2 ++ [id]) Hk') as [Hk'' Hlen'].
  cbn [fst] in Hlen'. split; [exact Hk'' | lia].
Qed.

Lemma emit_row_known p seen :
  known_states a b seen ->
  known_states a b (emit_row a b p seen).1
  /\ (length seen <= length (emit_row a b p seen).1)%nat.
Proof. intros Hk. apply (emit_row_fold p (merged_classes a b) (seen, [])), Hk. Qed.

Lemma known_states_bound seen :
  known_states a b seen -> (length seen <= state_bound a b)%nat.
Proof.
  intros [Hnd Hin]. unfold state_bound. rewrite <- length_prod.
  apply submseteq_length, NoDup_submseteq; [assumption|].
  intros [s1 s2] Hp. apply list_elem_of_In, in_prod;
    apply list_elem_of_In; apply (Hin _ Hp).
Qed.

(** With more rounds left than product states can remain, every product
    state the construction returns has got its row. *)
Lemma explore_complete maxSize fuel seen rows seen' rows' :
  known_states a b seen -> (length rows <= length seen)%nat ->
  (state_bound a b < fuel + length rows)%nat ->
  explore a b maxSize fuel seen rows = Some (seen', rows') ->
  known_states a b seen' /\ length rows' = length seen'.
Proof.
  revert seen rows. induction fuel as [|fuel IH]; intros seen rows Hk Hrows Hfuel;
    cbn [explore].
  { pose proof (known_states_bound seen Hk). lia. }
  destruct (seen !! length rows) as [p|] eqn:Hp.
  - destruct (emit_row_known p seen Hk) as [Hk' Hlen].
    destruct (emit_row a b p seen) as [seen1 row]. cbn [fst] in Hk', Hlen.
    destruct (exceeds maxSize (length seen1)); [discriminate|].
    apply lookup_lt_Some in Hp.
    apply IH; [assumption | rewrite length_app; cbn [length]; lia
              | rewrite length_app; cbn [length]; lia].
  - intros [= <- <-]. apply lookup_ge_None in Hp. split; [assumption | lia].
Qed.

Lemma product_complete maxSize seen rows :
  product a b maxSize = Some (seen, rows) ->
  known_states a b seen /\ length rows = length seen.
Proof.
  unfold product. apply explore_complete.
  - split; [apply NoDup_singleton|]. intros p Hp.
    apply list_elem_of_singleton in Hp. subst p.
    split; apply list_elem_of_here.
  - cbn [length]. lia.
  - cbn [length]. lia.
Qed.

End Product.

(** C9: when the product construction of [Glue(a, b, maxSize)] exceeds
    [maxSize] (a limit, so not [0], below the number of product states),
    [Glue] returns, with no exception, the empty sentinel scanner, for
    which the caller's test [Empty()] is true. *)
Theorem Glue_too_large_is_Empty (a b : Scanner) (maxSize : nat) :
  maxSize <> O ->
  (maxSize < length (product_states a b))%nat ->
  Glue a b maxSize = empty_scanner /\ Empty (Glue a b maxSize) = true.
Proof.
  intros Hm Hlarge. unfold Glue, product_states, product in *.
  destruct (explore_limit a b maxSize (S (state_bound a b))
              [(initial_state a, initial_state b)] []) as [-> | Heq].
  { split; reflexivity. }
  destruct (explore a b 0 (S (state_bound a b)) [(initial_state a, initial_state b)] [])
    as [[seen rows]|] eqn:Hun.
  - exfalso. apply (explore_within a b maxSize _ _ _ seen rows Hm) in Heq.
    + lia.
    + cbn [length]. lia.
  - cbn [length] in Hlarge. lia.
Qed.

Lemma Glue_too_large_is_Empty_witness :
  (1 <> 0)%nat
  /\ (1 < length (product_states cycle2 cycle2))%nat
  /\ Glue cycle2 cycle2 1 = empty_scanner
  /\ Empty (Glue cycle2 cycle2 1) = true.
Proof.
  assert (Hm : (1 <> 0)%nat) by discriminate.
  assert (Hlarge : (1 < length (product_states cycle2 cycle2))%nat)
    by (vm_compute; lia).
  split; [exact Hm|]. split; [exact Hlarge|].
  exact (Glue_too_large_is_Empty cycle2 cycle2 1 Hm Hlarge).
Defined.

(** Within the limit, and with no limit, [Glue] returns the product. *)
Example Glue_cycle2 :
  Glue cycle2 cycle2 0 =
  mkScanner (replicate 256 O) 0 [[1%nat]; [O]] [[]; [O; 1%nat]] 2
  /\ Glue cycle2 cycle2 2 = Glue cycle2 cycle2 0
  /\ Empty (Glue cycle2 cycle2 0) = false.
Proof. vm_compute. auto. Qed.

(** The caller's decision in [bench.cpp]: on an empty scanner from [Glue]
    the compilation loop throws. *)
Lemma Do_loop_throws_on_Empty {Fsm : Type} (compile : Fsm -> Scanner)
    (default_maxSize : nat) (sc : Scanner) (idx : nat) (f : Fsm) (rest : list Fsm) :
  idx <> O -> Empty (Glue sc (compile f) default_maxSize) = true ->
  Do_loop compile default_maxSize sc idx (f :: rest) =
  Thrown ("Scanner gluing failed at regexp #" +:+ pretty idx
          +:+ " - pattern too complicated").
Proof.
  intros Hidx HE. cbn [Do_loop].
  destruct (Nat.eqb_spec idx 0); [contradiction|]. rewrite HE. reflexivity.
Qed.

Example Do_cycle2_limit_1 :
  Do (fun sc : Scanner => sc) 1 [cycle2; cycle2] =
  Thrown "Scanner gluing failed at regexp #1 - pattern too complicated".
Proof. vm_compute. reflexivity. Qed.

Example Do_cycle2_no_limit :
  Do (fun sc : Scanner => sc) 0 [cycle2; cycle2] = Returned (Glue cycle2 cycle2 0).
Proof. vm_compute. reflexivity. Qed.

End PireFacts.

(** * Further properties of the counting scanner *)

Section Patterns.

Implicit Types (s : State) (a : Z) (i : nat).

Lemma IncrementMask_bit a i :
  (i < MAX_RE_COUNT)%nat -> Z.testbit a (Z.of_nat i) = true ->
  nonzero (Z.land a IncrementMask) = true.
Proof.
  intros Hi Ha. apply (testbit_nonzero _ (Z.of_nat i)).
  rewrite Z.land_spec, Ha. unfold MAX_RE_COUNT in *.
  assert (Hcases : (i = 0 \/ i = 1 \/ i = 2 \/ i = 3 \/ i = 4 \/ i = 5 \/ i = 6
                    \/ i = 7 \/ i = 8 \/ i = 9 \/ i = 10 \/ i = 11 \/ i = 12
                    \/ i = 13 \/ i = 14 \/ i = 15)%nat) by lia.
  repeat (destruct Hcases as [->|Hcases]; [reflexivity|]). subst i. reflexivity.
Qed.

(** The increment half on one of the counters [TakeAction] handles. *)
Lemma increment_half_pattern s a i :
  length (m_current s) = MAX_RE_COUNT -> (i < OPTIMAL_RE_COUNT)%nat ->
  m_current (increment_half s a) !!! i =
    (if Z.testbit a (Z.of_nat i) then ui32 (m_current s !!! i + 1)
     else m_current s !!! i)
  /\ m_total (increment_half s a) = m_total s.
Proof.
  intros Hlen Hi.
  assert (Hi16 : (i < MAX_RE_COUNT)%nat)
    by (unfold OPTIMAL_RE_COUNT, MAX_RE_COUNT in *; lia).
  unfold increment_half.
  destruct (nonzero (Z.land a IncrementMask)) eqn:Hg.
  - destruct (PerformIncrement_frame OPTIMAL_RE_COUNT s a) as (_ & -> & _).
    split; [|reflexivity]. rewrite PerformIncrement_current. unfold bumps.
    rewrite !bool_decide_eq_true_2 by lia. reflexivity.
  - split; [|reflexivity].
    destruct (Z.testbit a (Z.of_nat i)) eqn:Ha; [|reflexivity].
    rewrite (IncrementMask_bit a i Hi16 Ha) in Hg. discriminate.
Qed.

(** The reset half on any counter of a sound state. *)
Lemma reset_half_pattern s a i :
  gate_sound s -> (i < MAX_RE_COUNT)%nat ->
  m_current (reset_half s a) !!! i =
    (if Z.testbit a (Z.of_nat (MAX_RE_COUNT + i)) then 0 else m_current s !!! i)
  /\ m_total (reset_half s a) !!! i =
    (if Z.testbit a (Z.of_nat (MAX_RE_COUNT + i))
     then Z.max (m_total s !!! i) (m_current s !!! i) else m_total s !!! i).
Proof.
  intros Hgs Hi. pose proof Hgs as (Hc & Ht & Hr & _ & _).
  assert (Hlen : length (m_total s) = length (m_current s)) by congruence.
  unfold reset_half.
  destruct (Z.testbit a (Z.of_nat (MAX_RE_COUNT + i))) eqn:Ha.
  - rewrite (ResetMask_bit a i Hi Ha).
    destruct (PerformReset_counters OPTIMAL_RE_COUNT s a i Hlen) as [-> ->].
    rewrite commits_gate_sound by assumption.
    destruct (nonzero (m_current s !!! i)) eqn:Hnz; [auto|].
    apply nonzero_false in Hnz. rewrite Hnz. destruct (Hr i Hi). split; lia.
  - destruct (nonzero (Z.land a ResetMask)); [|auto].
    destruct (PerformReset_counters OPTIMAL_RE_COUNT s a i Hlen) as [-> ->].
    rewrite commits_clear by assumption. auto.
Qed.

Lemma TakeAction_pattern_sound s a i :
  gate_sound s -> (i < OPTIMAL_RE_COUNT)%nat ->
  m_current (TakeAction s a) !!! i =
    (if Z.testbit a (Z.of_nat (MAX_RE_COUNT + i)) then 0
     else if Z.testbit a (Z.of_nat i) then ui32 (m_current s !!! i + 1)
     else m_current s !!! i)
  /\ m_total (TakeAction s a) !!! i =
    (if Z.testbit a (Z.of_nat (MAX_RE_COUNT + i))
     then Z.max (m_total s !!! i)
            (if Z.testbit a (Z.of_nat i) then ui32 (m_current s !!! i + 1)
             else m_current s !!! i)
     else m_total s !!! i).
Proof.
  intros Hgs Hi.
  assert (Hi16 : (i < MAX_RE_COUNT)%nat)
    by (unfold OPTIMAL_RE_COUNT, MAX_RE_COUNT in *; lia).
  rewrite TakeAction_halves.
  destruct (reset_half_pattern (increment_half s a) a i) as [-> ->];
    [apply gate_sound_increment_half, Hgs | exact Hi16 |].
  destruct (increment_half_pattern s a i) as [-> ->]; [apply Hgs | exact Hi |].
  auto.
Qed.

End Patterns.

(** X1: on a state that occurs at run time and for a pattern index below
    [OPTIMAL_RE_COUNT], [TakeAction] is the counter the two bits of the
    pattern describe: Increment(i) adds one to [current[i]] in 32-bit
    arithmetic, then Reset(i) commits the result into [total[i]] as a
    maximum and zeroes [current[i]]; neither bit set, the pattern's
    counters are as before. *)
Theorem TakeAction_pattern (sc : CountingScanner) (s : State) (a : Z) (i : nat) :
  runtime_state sc s -> (i < OPTIMAL_RE_COUNT)%nat ->
  m_current (TakeAction s a) !!! i =
    (if Z.testbit a (Z.of_nat (MAX_RE_COUNT + i)) then 0
     else if Z.testbit a (Z.of_nat i) then ui32 (m_current s !!! i + 1)
     else m_current s !!! i)
  /\ m_total (TakeAction s a) !!! i =
    (if Z.testbit a (Z.of_nat (MAX_RE_COUNT + i))
     then Z.max (m_total s !!! i)
            (if Z.testbit a (Z.of_nat i) then ui32 (m_current s !!! i + 1)
             else m_current s !!! i)
     else m_total s !!! i).
Proof.
  intros Hrt Hi. apply TakeAction_pattern_sound; [|exact Hi].
  apply (gate_sound_runtime_state sc), Hrt.
Qed.

Lemma TakeAction_pattern_witness :
  let s := run scanner0 [EvAction 3; EvAction 2] in
  runtime_state scanner0 s /\ (1 < OPTIMAL_RE_COUNT)%nat
  /\ m_current (TakeAction s 131074) !!! 1%nat = 0
  /\ m_total (TakeAction s 131074) !!! 1%nat = 3.
Proof.
  intros s.
  assert (Hrt : runtime_state scanner0 s) by apply runtime_state_run.
  assert (Hi : (1 < OPTIMAL_RE_COUNT)%nat) by (unfold OPTIMAL_RE_COUNT; lia).
  split; [exact Hrt|]. split; [exact Hi|].
  exact (TakeAction_pattern scanner0 s 131074 1 Hrt Hi).
Defined.

(** X2: [PerformReset] is idempotent, on every state and for every
    instantiation: the second application finds the gate bits of the reset
    patterns cleared.  So delivering to [TakeAction] an action word without
    increment bits twice is delivering it once. *)
Theorem PerformReset_idempotent (n : nat) (s : State) (a : Z) :
  PerformReset n (PerformReset n s a) a = PerformReset n s a
  /\ (nonzero (Z.land a IncrementMask) = false ->
      TakeAction (TakeAction s a) a = TakeAction s a).
Proof.
  assert (Hidem : forall n, PerformReset n (PerformReset n s a) a = PerformReset n s a).
  { clear n. intros n. unfold PerformReset at 2 3.
    set (gated := ui32 (Z.land a (m_updatedMask s))).
    destruct (nonzero gated) eqn:Hg.
    - destruct (PerformReseter_frame n s gated) as (_ & Hum & _ & _).
      unfold PerformReset. state_simpl. rewrite Hum.
      replace (ui32 (Z.land a (Z.land (m_updatedMask s) (ui32 (Z.lnot gated)))))
        with 0; [reflexivity|].
      symmetry. apply Z.bits_inj'. intros k Hk. rewrite Z.bits_0.
      destruct (Z_lt_ge_dec k 32) as [Hlt|Hge].
      + rewrite testbit_ui32, !Z.land_spec, testbit_ui32, Z.lnot_spec by lia.
        unfold gated. rewrite testbit_ui32, Z.land_spec by lia.
        destruct (Z.testbit a k), (Z.testbit (m_updatedMask s) k); reflexivity.
      + unfold ui32 at 1. apply Z.mod_pow2_bits_high. lia.
    - unfold PerformReset. fold gated. rewrite Hg. reflexivity. }
  split; [apply Hidem|].
  intros Hinc. unfold TakeAction, TakeActionImpl. rewrite Hinc.
  destruct (nonzero (Z.land a ResetMask)); [apply Hidem | reflexivity].
Qed.

Lemma PerformReset_idempotent_witness :
  let s := run scanner0 [EvAction 1; EvAction 1] in
  nonzero (Z.land 65536 IncrementMask) = false
  /\ TakeAction (TakeAction s 65536) 65536 = TakeAction s 65536.
Proof.
  intros s.
  assert (H : nonzero (Z.land 65536 IncrementMask) = false) by reflexivity.
  split; [exact H|].
  exact (proj2 (PerformReset_idempotent OPTIMAL_RE_COUNT s 65536) H).
Defined.

(** ** Along a run *)

Section Along.

Variable sc : CountingScanner.

Implicit Types (s : State) (a : Z) (i : nat) (evs : list Event) (ev : Event).

Lemma increment_half_total s a : m_total (increment_half s a) = m_total s.
Proof.
  unfold increment_half. destruct (nonzero _); [|reflexivity].
  apply (PerformIncrement_frame OPTIMAL_RE_COUNT s a).
Qed.

Lemma steps_snoc s evs ev : steps sc s (evs ++ [ev]) = step sc (steps sc s evs) ev.
Proof. unfold steps. rewrite fold_left_app. reflexivity. Qed.

Lemma steps_app s evs evs' : steps sc s (evs ++ evs') = steps sc (steps sc s evs) evs'.
Proof. unfold steps. apply fold_left_app. Qed.

Lemma run_app evs evs' : run sc (evs ++ evs') = steps sc (run sc evs) evs'.
Proof. unfold run, steps. apply fold_left_app. Qed.

Lemma gate_sound_steps s evs : gate_sound s -> gate_sound (steps sc s evs).
Proof.
  intros Hgs. induction evs as [|ev evs IH] using rev_ind; [exact Hgs|].
  rewrite steps_snoc. apply gate_sound_step, IH.
Qed.

(** The counters [TakeAction] does not reach stay zero. *)
Lemma high_counters_zero evs i :
  (OPTIMAL_RE_COUNT <= i < MAX_RE_COUNT)%nat ->
  m_current (run sc evs) !!! i = 0 /\ m_total (run sc evs) !!! i = 0.
Proof.
  intros Hi. split.
  { pose proof (gate_sound_run sc evs) as (_ & _ & _ & _ & Hz). apply Hz, Hi. }
  induction evs as [|ev evs IH] using rev_ind.
  { unfold run. cbn [fold_left Initialize m_total].
    apply lookup_total_replicate_2. lia. }
  rewrite run_snoc. destruct ev as [c|a]; cbn [step]; [exact IH|].
  rewrite TakeAction_halves.
  pose proof (gate_sound_increment_half _ a (gate_sound_run sc evs)) as Hgs.
  destruct (reset_half_pattern (increment_half (run sc evs) a) a i Hgs) as [_ ->];
    [lia|].
  pose proof Hgs as (_ & _ & _ & _ & Hz).
  rewrite (Hz i Hi), increment_half_total, IH. destruct (Z.testbit _ _); reflexivity.
Qed.

Lemma total_step s ev i :
  length (m_total s) = length (m_current s) ->
  m_total s !!! i <= m_total (step sc s ev) !!! i.
Proof.
  intros Hlen. destruct ev as [c|a]; cbn [step].
  { cbn. lia. }
  rewrite TakeAction_halves. rewrite <- (increment_half_total s a) at 1.
  unfold reset_half. destruct (nonzero (Z.land a ResetMask)); [|lia].
  destruct (PerformReset_counters OPTIMAL_RE_COUNT (increment_half s a) a i)
    as [_ ->].
  - rewrite increment_half_total. unfold increment_half.
    destruct (nonzero _); [|exact Hlen].
    destruct (PerformIncrement_frame OPTIMAL_RE_COUNT s a) as (_ & _ & ->).
    exact Hlen.
  - destruct (commits _ _ _ _); lia.
Qed.

Lemma set_state_PerformIncrementer n s mask v :
  PerformIncrementer n (set_state s v) mask = set_state (PerformIncrementer n s mask) v.
Proof.
  revert s. induction n as [|n IH]; intros s; cbn [PerformIncrementer]; [reflexivity|].
  state_simpl. destruct (nonzero _); [|apply IH].
  rewrite <- IH. reflexivity.
Qed.

Lemma set_state_PerformReseter n s mask v :
  PerformReseter n (set_state s v) mask = set_state (PerformReseter n s mask) v.
Proof.
  revert s. induction n as [|n IH]; intros s; cbn [PerformReseter]; [reflexivity|].
  state_simpl. destruct (_ && _); [|apply IH].
  rewrite <- IH. reflexivity.
Qed.

Lemma set_state_TakeAction s a v :
  TakeAction (set_state s v) a = set_state (TakeAction s a) v.
Proof.
  unfold TakeAction, TakeActionImpl.
  assert (Hinc : PerformIncrement OPTIMAL_RE_COUNT (set_state s v) a
                 = set_state (PerformIncrement OPTIMAL_RE_COUNT s a) v).
  { unfold PerformIncrement. destruct (nonzero a); [|reflexivity].
    rewrite set_state_PerformIncrementer. reflexivity. }
  assert (Hres : forall s, PerformReset OPTIMAL_RE_COUNT (set_state s v) a
                 = set_state (PerformReset OPTIMAL_RE_COUNT s a) v).
  { intros s0. unfold PerformReset. state_simpl. destruct (nonzero _); [|reflexivity].
    rewrite set_state_PerformReseter. reflexivity. }
  destruct (nonzero (Z.land a IncrementMask)), (nonzero (Z.land a ResetMask));
    rewrite ?Hinc, ?Hres; reflexivity.
Qed.

End Along.

(** The counters of a run are those of its action words alone. *)
Lemma run_actions_only (sc : CountingScanner) (evs : list Event) :
  run sc evs =
  set_state (fold_left TakeAction (actions_of evs) (Initialize sc)) (m_state (run sc evs)).
Proof.
  induction evs as [|ev evs IH] using rev_ind.
  { reflexivity. }
  rewrite run_snoc. unfold actions_of in *. rewrite omap_app, fold_left_app.
  destruct ev as [c|a]; cbn [omap option_bind list_omap step fold_left app].
  - rewrite IH at 1. unfold Next, NextTranslated. cbn [fst]. reflexivity.
  - rewrite IH at 1. rewrite set_state_TakeAction.
    rewrite (TakeAction_m_state (run sc evs) a).
    unfold set_state. cbn [m_state m_current m_total m_updatedMask].
    reflexivity.
Qed.

(** X3: the patterns from [OPTIMAL_RE_COUNT] on are never counted: whatever
    characters and action words a run consists of, [current[i]], [total[i]]
    and [Result(i)] are zero for [OPTIMAL_RE_COUNT <= i < MAX_RE_COUNT]. *)
Theorem high_patterns_report_zero (sc : CountingScanner) (evs : list Event) (i : nat) :
  (OPTIMAL_RE_COUNT <= i < MAX_RE_COUNT)%nat ->
  m_current (run sc evs) !!! i = 0
  /\ m_total (run sc evs) !!! i = 0
  /\ Result (run sc evs) i = 0.
Proof.
  intros Hi. destruct (high_counters_zero sc evs i Hi) as [Hc Ht].
  unfold Result. rewrite Hc, Ht. auto.
Qed.

Lemma high_patterns_report_zero_witness :
  (OPTIMAL_RE_COUNT <= 5 < MAX_RE_COUNT)%nat
  /\ Result (run scanner0 [EvAction 32; EvNext 97; EvAction 32; EvAction 2097152]) 5 = 0.
Proof.
  assert (Hi : (OPTIMAL_RE_COUNT <= 5 < MAX_RE_COUNT)%nat)
    by (unfold OPTIMAL_RE_COUNT, MAX_RE_COUNT; lia).
  split; [exact Hi|].
  exact (proj2 (proj2 (high_patterns_report_zero scanner0
    [EvAction 32; EvNext 97; EvAction 32; EvAction 2097152] 5 Hi))).
Defined.

(** X4: [total[i]] never decreases as a run goes on, for every pattern and
    with no bound on the length of the run: the 32-bit wrap-around that can
    make [Result(i)] drop only touches [current[i]]. *)
Theorem total_never_decreases (sc : CountingScanner) (evs evs' : list Event) (i : nat) :
  m_total (run sc evs) !!! i <= m_total (run sc (evs ++ evs')) !!! i.
Proof.
  induction evs' as [|ev evs' IH] using rev_ind.
  { rewrite app_nil_r. lia. }
  rewrite app_assoc, run_snoc. etransitivity; [exact IH|].
  apply total_step.
  pose proof (gate_sound_run sc (evs ++ evs')) as (Hc & Ht & _). congruence.
Qed.

(** X5: the position in the table after a run is the private [Next] folded
    over the characters fed, from the initial state: the action words
    delivered in between have no part in it. *)
Theorem position_follows_characters (sc : CountingScanner) (evs : list Event) :
  m_state (run sc evs) = fold_left (Next_internal sc) (chars_of evs) (initial sc).
Proof.
  induction evs as [|ev evs IH] using rev_ind.
  { reflexivity. }
  rewrite run_snoc. unfold chars_of in *. rewrite omap_app, fold_left_app.
  destruct ev as [c|a]; cbn [omap option_bind list_omap step fold_left app].
  - rewrite <- IH. reflexivity.
  - rewrite TakeAction_m_state. exact IH.
Qed.

(** X6: the counters and [m_updatedMask] after a run are those of the
    action words delivered, in their order: two runs with the same action
    words, over whatever tables and characters, end with the same
    counters. *)
Theorem counters_follow_actions (sc sc' : CountingScanner) (evs evs' : list Event) :
  actions_of evs = actions_of evs' ->
  m_current (run sc evs) = m_current (run sc' evs')
  /\ m_total (run sc evs) = m_total (run sc' evs')
  /\ m_updatedMask (run sc evs) = m_updatedMask (run sc' evs')
  /\ forall i, Result (run sc evs) i = Result (run sc' evs') i.
Proof.
  intros Hact.
  assert (Hinit : Initialize sc = set_state (Initialize sc') (initial sc)) by reflexivity.
  assert (Hfold : forall acts s v,
    fold_left TakeAction acts (set_state s v) = set_state (fold_left TakeAction acts s) v).
  { induction acts as [|a acts IH]; intros s v; cbn [fold_left]; [reflexivity|].
    rewrite set_state_TakeAction. apply IH. }
  rewrite (run_actions_only sc evs), (run_actions_only sc' evs'), Hact, Hinit, Hfold.
  unfold Result. cbn [set_state m_current m_total m_updatedMask]. auto.
Qed.

Lemma counters_follow_actions_witness :
  actions_of [EvNext 97; EvAction 1; EvNext 98; EvAction 65536] = actions_of [EvAction 1; EvAction 65536]
  /\ m_total (run scanner0 [EvNext 97; EvAction 1; EvNext 98; EvAction 65536])
     = m_total (run (mkCountingScanner 0 [] (fun _ => mkTransition 8 1))
                  [EvAction 1; EvAction 65536]).
Proof.
  assert (H : actions_of [EvNext 97; EvAction 1; EvNext 98; EvAction 65536]
              = actions_of [EvAction 1; EvAction 65536]) by reflexivity.
  split; [exact H|].
  exact (proj1 (proj2 (counters_follow_actions scanner0
    (mkCountingScanner 0 [] (fun _ => mkTransition 8 1)) _ _ H))).
Defined.

(** ** Counting runs of matches *)

Section Counting.

Variable sc : CountingScanner.

Implicit Types (s : State) (i n : nat) (evs : list Event).

Lemma increments_of_snoc i evs ev :
  increments_of i (evs ++ [ev]) =
  (increments_of i evs +
   match ev with
   | EvNext _ => 0
   | EvAction a => if Z.testbit a (Z.of_nat i) then 1 else 0
   end)%nat.
Proof.
  unfold increments_of, actions_of. rewrite omap_app, filter_app, length_app.
  destruct ev as [c|a]; cbn [omap option_bind list_omap]; [reflexivity|].
  rewrite filter_cons. destruct (decide _) as [Hb|Hb].
  - rewrite Hb. reflexivity.
  - apply not_true_is_false in Hb. rewrite Hb. reflexivity.
Qed.

Lemma counters_within_increments evs i :
  (i < MAX_RE_COUNT)%nat ->
  0 <= m_current (run sc evs) !!! i <= Z.of_nat (increments_of i evs)
  /\ 0 <= m_total (run sc evs) !!! i <= Z.of_nat (increments_of i evs).
Proof.
  intros Hi16.
  destruct (decide (i < OPTIMAL_RE_COUNT)%nat) as [Hi|Hhigh].
  2:{ destruct (high_counters_zero sc evs i) as [-> ->]; lia. }
  induction evs as [|ev evs IH] using rev_ind.
  { unfold run. cbn [fold_left Initialize m_current m_total].
    rewrite lookup_total_replicate_2 by assumption. cbn. lia. }
  rewrite run_snoc, increments_of_snoc.
  destruct ev as [c|a]; cbn [step].
  { cbn [Next NextTranslated fst set_state m_current m_total]. lia. }
  destruct (TakeAction_pattern_sound (run sc evs) a i (gate_sound_run sc evs) Hi)
    as [-> ->].
  assert (Hwrap : 0 <= ui32 (m_current (run sc evs) !!! i + 1)
                  <= m_current (run sc evs) !!! i + 1).
  { split; [apply ui32_range|]. unfold ui32. apply Z.mod_le; lia. }
  destruct (Z.testbit a (Z.of_nat (MAX_RE_COUNT + i))), (Z.testbit a (Z.of_nat i)); lia.
Qed.

Lemma Increment_bits i :
  Z.testbit (Increment i) (Z.of_nat i) = true
  /\ Z.testbit (Increment i) (Z.of_nat (MAX_RE_COUNT + i)) = false.
Proof.
  unfold Increment, MAX_RE_COUNT. rewrite Z.shiftl_1_l.
  split; [apply Z.pow2_bits_true | apply Z.pow2_bits_false]; lia.
Qed.

Lemma Reset_bits i :
  Z.testbit (Reset i) (Z.of_nat i) = false
  /\ Z.testbit (Reset i) (Z.of_nat (MAX_RE_COUNT + i)) = true.
Proof.
  unfold Reset, MAX_RE_COUNT. rewrite Z.shiftl_1_l.
  split; [apply Z.pow2_bits_false | apply Z.pow2_bits_true]; lia.
Qed.

Lemma steps_Increment s i n :
  gate_sound s -> (i < OPTIMAL_RE_COUNT)%nat ->
  m_current s !!! i + Z.of_nat n < 2 ^ 32 ->
  m_current (steps sc s (repeat (EvAction (Increment i)) n)) !!! i
    = m_current s !!! i + Z.of_nat n
  /\ m_total (steps sc s (repeat (EvAction (Increment i)) n)) !!! i = m_total s !!! i.
Proof.
  intros Hgs Hi. induction n as [|n IH]; intros Hn.
  { cbn [repeat steps fold_left]. split; [lia | reflexivity]. }
  destruct IH as [IHc IHt]; [lia|].
  cbn [repeat]. rewrite repeat_cons, steps_snoc. cbn [step].
  destruct (TakeAction_pattern_sound
              (steps sc s (repeat (EvAction (Increment i)) n)) (Increment i) i)
    as [-> ->]; [apply gate_sound_steps, Hgs | exact Hi |].
  destruct (Increment_bits i) as [-> ->]. rewrite IHc, IHt.
  split; [|reflexivity].
  pose proof Hgs as (_ & _ & Hr & _).
  destruct (Hr i) as [[H0 _] _];
    [unfold OPTIMAL_RE_COUNT, MAX_RE_COUNT in *; lia|].
  unfold ui32. rewrite Z.mod_small by lia. lia.
Qed.

Lemma steps_matches_then_separator s i n :
  gate_sound s -> (i < OPTIMAL_RE_COUNT)%nat ->
  m_current s !!! i = 0 -> Z.of_nat n < 2 ^ 32 ->
  m_current (steps sc s (matches_then_separator i n)) !!! i = 0
  /\ m_total (steps sc s (matches_then_separator i n)) !!! i
     = Z.max (m_total s !!! i) (Z.of_nat n).
Proof.
  intros Hgs Hi Hc Hn. unfold matches_then_separator.
  rewrite steps_snoc. cbn [step].
  destruct (steps_Increment s i n Hgs Hi) as [Hc' Ht']; [lia|].
  destruct (TakeAction_pattern_sound
              (steps sc s (repeat (EvAction (Increment i)) n)) (Reset i) i)
    as [-> ->]; [apply gate_sound_steps, Hgs | exact Hi |].
  destruct (Reset_bits i) as [-> ->]. rewrite Hc', Ht', Hc.
  split; [reflexivity | f_equal; lia].
Qed.

Lemma steps_runs s i (ns : list nat) :
  gate_sound s -> (i < OPTIMAL_RE_COUNT)%nat ->
  m_current s !!! i = 0 -> Forall (fun n => Z.of_nat n < 2 ^ 32) ns ->
  m_current (steps sc s (concat (map (matches_then_separator i) ns))) !!! i = 0
  /\ m_total (steps sc s (concat (map (matches_then_separator i) ns))) !!! i
     = Z.max (m_total s !!! i) (Z.of_nat (max_list ns)).
Proof.
  intros Hgs Hi Hc Hns. revert s Hgs Hc.
  induction Hns as [|n ns Hn Hns IH]; intros s Hgs Hc.
  { cbn [map concat steps fold_left max_list]. split; [exact Hc|].
    pose proof Hgs as (_ & _ & Hr & _).
    destruct (Hr i) as [_ [H0 _]];
      [unfold OPTIMAL_RE_COUNT, MAX_RE_COUNT in *; lia|].
    cbn. lia. }
  cbn [map concat max_list]. rewrite steps_app.
  destruct (steps_matches_then_separator s i n Hgs Hi Hc Hn) as [Hc1 Ht1].
  destruct (IH (steps sc s (matches_then_separator i n))) as [-> ->];
    [apply gate_sound_steps, Hgs | exact Hc1 |].
  rewrite Ht1. unfold id. split; [reflexivity | lia].
Qed.

End Counting.

(** X7: [Result(i)] counts matches only: after every run it is at least
    zero and at most the number of action words delivered that carry
    Increment(i). *)
Theorem Result_within_increments (sc : CountingScanner) (evs : list Event) (i : nat) :
  (i < MAX_RE_COUNT)%nat ->
  0 <= Result (run sc evs) i <= Z.of_nat (increments_of i evs).
Proof.
  intros Hi. destruct (counters_within_increments sc evs i Hi) as [Hc Ht].
  unfold Result. lia.
Qed.

Lemma Result_within_increments_witness :
  (0 < MAX_RE_COUNT)%nat
  /\ 0 <= Result (run scanner0 [EvAction 1; EvAction 65536; EvAction 2; EvAction 1]) 0
     <= Z.of_nat (increments_of 0 [EvAction 1; EvAction 65536; EvAction 2; EvAction 1]).
Proof.
  assert (Hi : (0 < MAX_RE_COUNT)%nat) by (unfold MAX_RE_COUNT; lia).
  split; [exact Hi|].
  exact (Result_within_increments scanner0
           [EvAction 1; EvAction 65536; EvAction 2; EvAction 1] 0 Hi).
Defined.

(** X8: what the counting scanner counts.  For a pattern index below
    [OPTIMAL_RE_COUNT], after runs of [n1], [n2], ... matches, each ended
    by a separator, followed by [m] matches with no separator yet, all
    below [2^32], [Result(i)] is the length of the longest run, the trailing
    one included. *)
Theorem Result_longest_run (sc : CountingScanner) (i : nat) (ns : list nat) (m : nat) :
  (i < OPTIMAL_RE_COUNT)%nat ->
  Forall (fun n => Z.of_nat n < 2 ^ 32) ns ->
  Z.of_nat m < 2 ^ 32 ->
  Result
    (run sc (concat (map (matches_then_separator i) ns)
             ++ repeat (EvAction (Increment i)) m)) i
  = Z.of_nat (max (max_list ns) m).
Proof.
  intros Hi Hns Hm. rewrite run_app.
  assert (Hi16 : (i < MAX_RE_COUNT)%nat)
    by (unfold OPTIMAL_RE_COUNT, MAX_RE_COUNT in *; lia).
  assert (Hinit : forall j, (j < MAX_RE_COUNT)%nat ->
            m_current (Initialize sc) !!! j = 0 /\ m_total (Initialize sc) !!! j = 0).
  { intros j Hj. cbn [Initialize m_current m_total].
    rewrite lookup_total_replicate_2 by assumption. auto. }
  destruct (steps_runs sc (Initialize sc) i ns) as [Hc Ht];
    [apply gate_sound_Initialize | exact Hi | apply Hinit, Hi16 | exact Hns |].
  change (steps sc (Initialize sc) (concat (map (matches_then_separator i) ns)))
    with (run sc (concat (map (matches_then_separator i) ns))) in Hc, Ht.
  destruct (steps_Increment sc
              (run sc (concat (map (matches_then_separator i) ns))) i m)
    as [Hc' Ht']; [apply gate_sound_run | exact Hi | lia |].
  unfold Result. rewrite Hc', Ht', Hc, Ht, (proj2 (Hinit i Hi16)). lia.
Qed.

Lemma Result_longest_run_witness :
  (0 < OPTIMAL_RE_COUNT)%nat
  /\ Forall (fun n => Z.of_nat n < 2 ^ 32) [2; 3; 2; 0; 0]%nat
  /\ Z.of_nat 1 < 2 ^ 32
  /\ Result
       (run scanner0 (concat (map (matches_then_separator 0) [2; 3; 2; 0; 0]%nat)
                      ++ repeat (EvAction (Increment 0)) 1)) 0
     = Z.of_nat (max (max_list [2; 3; 2; 0; 0]%nat) 1).
Proof.
  assert (Hi : (0 < OPTIMAL_RE_COUNT)%nat) by (unfold OPTIMAL_RE_COUNT; lia).
  assert (Hns : Forall (fun n => Z.of_nat n < 2 ^ 32) [2; 3; 2; 0; 0]%nat)
    by (repeat constructor).
  assert (Hm : Z.of_nat 1 < 2 ^ 32) by reflexivity.
  split; [exact Hi|]. split; [exact Hns|]. split; [exact Hm|].
  exact (Result_longest_run scanner0 0 [2; 3; 2; 0; 0]%nat 1 Hi Hns Hm).
Defined.

(** * The benchmark tool *)

Module BenchFacts.

Import Pire Bench.

(** Induction that follows the loop over the arguments, which consumes one
    or two of them at a time. *)
Lemma args_pair_ind (P : list string -> Prop) :
  P [] -> (forall a, P [a]) ->
  (forall a b l, P l -> P (b :: l) -> P (a :: b :: l)) ->
  forall l, P l.
Proof.
  intros Hnil Hone Hstep l.
  cut (P l /\ forall a, P (a :: l)); [tauto|].
  induction l as [|b l [IH1 IH2]]; split; auto.
Qed.

Lemma push_back_last_length {A : Type} (x : A) (groups : list (list A)) :
  length (push_back_last x groups) = length groups.
Proof.
  induction groups as [|g [|g' gs] IH]; cbn [push_back_last length] in *; auto.
Qed.

Lemma push_back_last_snoc {A : Type} (x : A) (groups : list (list A)) (g : list A) :
  push_back_last x (groups ++ [g]) = groups ++ [g ++ [x]].
Proof.
  induction groups as [|g0 gs IH]; [reflexivity|].
  cbn [app push_back_last]. rewrite IH.
  destruct gs; reflexivity.
Qed.

Section Parse.

Context {Fsm : Type}.
Variable parse : string -> outcome Fsm.

Implicit Types (args types : list string) (fsms : list (list Fsm)) (file : string).

Lemma add_regexp_Returned {R : Type} arg fsms (k : list (list Fsm) -> outcome R) (r : R) :
  add_regexp parse arg fsms k = Returned r ->
  exists f, fsms <> [] /\ parse arg = Returned f /\ k (push_back_last f fsms) = Returned r.
Proof.
  unfold add_regexp. destruct fsms as [|g gs]; [discriminate|].
  destruct (parse arg) as [f|what]; [|discriminate].
  intros H. exists f. auto.
Qed.

(** The loop pushes a type and a group together. *)
Lemma parse_args_lengths args : forall types fsms file types' fsms' file',
  parse_args parse args types fsms file = Returned (types', fsms', file') ->
  length fsms = length types -> length fsms' = length types'.
Proof.
  induction args as [| a | a b l IHl IHbl] using args_pair_ind;
    intros types fsms file types' fsms' file'.
  - cbn [parse_args]. intros [= <- <- <-]. auto.
  - cbn [parse_args]. intros H Hlen.
    apply add_regexp_Returned in H as (f & _ & _ & H). cbn [parse_args] in H.
    injection H as <- <- <-. rewrite push_back_last_length. exact Hlen.
  - cbn [parse_args]. intros H Hlen.
    destruct (String.eqb a "-t").
    { apply (IHl _ _ _ _ _ _ H). rewrite !length_app. cbn [length]. lia. }
    destruct (String.eqb a "-f").
    { apply (IHl _ _ _ _ _ _ H Hlen). }
    destruct (String.eqb a "-e");
      apply add_regexp_Returned in H as (f & _ & _ & H).
    + apply (IHl _ _ _ _ _ _ H). rewrite push_back_last_length. exact Hlen.
    + apply (IHbl _ _ _ _ _ _ H). rewrite push_back_last_length. exact Hlen.
Qed.

(** What the loop returns it has read from the arguments: a type needs a
    [-t], a file name a [-f]. *)
Lemma parse_args_options args : forall types fsms file types' fsms' file',
  parse_args parse args types fsms file = Returned (types', fsms', file') ->
  (types' = types \/ "-t" ∈ args) /\ (file' = file \/ "-f" ∈ args).
Proof.
  induction args as [| a | a b l IHl IHbl] using args_pair_ind;
    intros types fsms file types' fsms' file'.
  - cbn [parse_args]. intros [= <- <- <-]. auto.
  - cbn [parse_args]. intros H.
    apply add_regexp_Returned in H as (f & _ & _ & H). cbn [parse_args] in H.
    injection H as <- <- <-. auto.
  - cbn [parse_args]. intros H.
    destruct (String.eqb_spec a "-t") as [->|Ht].
    { split; [right; apply list_elem_of_here|].
      destruct (IHl _ _ _ _ _ _ H) as [_ [Hf|Hf]]; [auto|].
      right. apply elem_of_cons. right. apply elem_of_cons. right. exact Hf. }
    destruct (String.eqb_spec a "-f") as [->|Hf].
    { split; [|right; apply list_elem_of_here].
      destruct (IHl _ _ _ _ _ _ H) as [[Hty|Hty] _]; [auto|].
      right. apply elem_of_cons. right. apply elem_of_cons. right. exact Hty. }
    destruct (String.eqb a "-e");
      apply add_regexp_Returned in H as (f & _ & _ & H).
    + destruct (IHl _ _ _ _ _ _ H) as [[Hty|Hty] [Hfi|Hfi]]; split; auto;
        right; apply elem_of_cons; right; apply elem_of_cons; right; assumption.
    + destruct (IHbl _ _ _ _ _ _ H) as [[Hty|Hty] [Hfi|Hfi]]; split; auto;
        right; apply elem_of_cons; right; assumption.
Qed.

End Parse.

Lemma one_type_true types t : one_type types t = true -> types = [t].
Proof.
  destruct types as [|x [|y l]]; cbn [one_type]; try discriminate.
  intros H. apply String.eqb_eq in H. congruence.
Qed.

Lemma two_types_true types t1 t2 : two_types types t1 t2 = true -> types = [t1; t2].
Proof.
  destruct types as [|x [|y [|z l]]]; cbn [two_types]; try discriminate.
  intros H. apply andb_true_iff in H as [H1 H2].
  apply String.eqb_eq in H1, H2. congruence.
Qed.

(** The types each tester is selected for. *)
Lemma select_tester_types types t :
  select_tester types = Some t ->
  match t with
  | Tester _ | MemTester => length types = 1%nat
  | PairTester _ _ => length types = 2%nat
  end.
Proof.
  unfold select_tester.
  repeat match goal with
  | |- context [if one_type types ?t then _ else _] =>
      let H := fresh "H" in
      destruct (one_type types t) eqn:H;
      [apply one_type_true in H; subst types; intros [= <-]; reflexivity|]
  | |- context [if two_types types ?t1 ?t2 then _ else _] =>
      let H := fresh "H" in
      destruct (two_types types t1 t2) eqn:H;
      [apply two_types_true in H; subst types; intros [= <-]; reflexivity|]
  end.
  discriminate.
Qed.

Lemma arguments_missing_defined {Fsm : Type} (types : list string)
    (fsms : list (list Fsm)) (file : string) :
  length fsms = length types -> arguments_missing types fsms file <> None.
Proof.
  intros Hlen. unfold arguments_missing.
  destruct types as [|t types]; [discriminate|].
  destruct (String.eqb file ""); [discriminate|].
  destruct fsms as [|g gs] using rev_ind; [discriminate|].
  rewrite last_snoc. destruct g; discriminate.
Qed.

(** X9: when the loop of [Main] over the arguments ends without throwing,
    there are as many groups of regexps as types, so that the test
    [fsms.back().empty()] that follows, reached only when [types] is not
    empty, never takes [back()] of an empty vector. *)
Theorem parse_args_groups_match_types {Fsm : Type} (parse : string -> outcome Fsm)
    (args types : list string) (fsms : list (list Fsm)) (file : string) :
  parse_args parse args [] [] "" = Returned (types, fsms, file) ->
  length fsms = length types /\ arguments_missing types fsms file <> None.
Proof.
  intros H.
  assert (Hlen : length fsms = length types).
  { apply (parse_args_lengths parse args _ _ _ _ _ _ H). reflexivity. }
  split; [exact Hlen | apply arguments_missing_defined, Hlen].
Qed.

Lemma parse_args_groups_match_types_witness :
  parse_args (fun r => Returned r) ["-f"; "log"; "-t"; "multi"; "a+"; "-e"; "-b"] [] [] ""
  = Returned (["multi"], [["a+"; "-b"]], "log")
  /\ length [["a+"; "-b"]] = length ["multi"]
  /\ arguments_missing ["multi"] [["a+"; "-b"]] "log" <> None.
Proof.
  assert (H : parse_args (fun r => Returned r)
                ["-f"; "log"; "-t"; "multi"; "a+"; "-e"; "-b"] [] [] ""
              = Returned (["multi"], [["a+"; "-b"]], "log")) by reflexivity.
  split; [exact H|].
  exact (parse_args_groups_match_types (fun r => Returned r) _ _ _ _ H).
Defined.

(** X10: the testers [Main] builds: a single type is accepted when it is
    one of multi, nonreloc, simple, slow and null; two types are accepted
    when each is one of multi, nonreloc and simple; every other list of
    types, the empty one and those of three or more, is a usage error. *)
Theorem select_tester_accepts (types : list string) :
  select_tester types <> None <->
  (exists t, types = [t] /\ t ∈ ["multi"; "nonreloc"; "simple"; "slow"; "null"])
  \/ (exists t1 t2, types = [t1; t2]
        /\ t1 ∈ ["multi"; "nonreloc"; "simple"]
        /\ t2 ∈ ["multi"; "nonreloc"; "simple"]).
Proof.
  split.
  - unfold select_tester.
    repeat match goal with
    | |- context [if one_type types ?t then _ else _] =>
        let H := fresh "H" in
        destruct (one_type types t) eqn:H;
        [apply one_type_true in H; subst types; intros _; left;
         eexists; split; [reflexivity|]; repeat constructor|]
    | |- context [if two_types types ?t1 ?t2 then _ else _] =>
        let H := fresh "H" in
        destruct (two_types types t1 t2) eqn:H;
        [apply two_types_true in H; subst types; intros _; right;
         do 2 eexists; split; [reflexivity|]; split; repeat constructor|]
    end.
    intros Hnone. contradiction.
  - intros [(t & -> & Ht) | (t1 & t2 & -> & Ht1 & Ht2)].
    + repeat (apply elem_of_cons in Ht as [->|Ht]; [discriminate|]).
      apply elem_of_nil in Ht. contradiction.
    + repeat (apply elem_of_cons in Ht1 as [->|Ht1];
        [repeat (apply elem_of_cons in Ht2 as [->|Ht2]; [discriminate|]);
         apply elem_of_nil in Ht2; contradiction|]).
      apply elem_of_nil in Ht1. contradiction.
Qed.

(** X11: in [Main] the size tests of the testers always pass: when the
    arguments are read and a tester is selected, [Tester::Compile] finds
    exactly one group of regexps and [PairTester::Compile] exactly two, so
    each is the compilation of its groups and the errors "Only one set" and
    "Only two sets of regexps" are never thrown by the tests. *)
Theorem tester_size_tests_pass {Fsm S : Type} (parse : string -> outcome Fsm)
    (args types : list string) (fsms : list (list Fsm)) (file : string) (t : tester) :
  parse_args parse args [] [] "" = Returned (types, fsms, file) ->
  select_tester types = Some t ->
  match t with
  | Tester _ =>
      exists g, fsms = [g]
        /\ forall compile_group : list Fsm -> outcome S,
             Tester_Compile compile_group fsms = compile_group g
  | MemTester => length fsms = 1%nat
  | PairTester _ _ =>
      exists g1 g2, fsms = [g1; g2]
        /\ forall compile_group1 compile_group2 : list Fsm -> outcome S,
             PairTester_Compile compile_group1 compile_group2 fsms =
             match compile_group1 g1 with
             | Thrown what => Thrown what
             | Returned sc1 =>
                 match compile_group2 g2 with
                 | Thrown what => Thrown what
                 | Returned sc2 => Returned (sc1, sc2)
                 end
             end
  end.
Proof.
  intros Hparse Hsel.
  assert (Hlen : length fsms = length types).
  { apply (parse_args_lengths parse args _ _ _ _ _ _ Hparse). reflexivity. }
  apply select_tester_types in Hsel. destruct t as [k| |k1 k2].
  - rewrite Hsel in Hlen. destruct fsms as [|g [|g' gs]]; try discriminate.
    exists g. split; reflexivity.
  - congruence.
  - rewrite Hsel in Hlen. destruct fsms as [|g1 [|g2 [|g3 gs]]]; try discriminate.
    exists g1, g2. split; reflexivity.
Qed.

Lemma tester_size_tests_pass_witness :
  parse_args (fun r => Returned r) ["-t"; "simple"; "a"; "-t"; "multi"; "b"; "c"; "-f"; "log"]
    [] [] ""
  = Returned (["simple"; "multi"], [["a"]; ["b"; "c"]], "log")
  /\ select_tester ["simple"; "multi"] = Some (PairTester simple multi)
  /\ exists g1 g2, [["a"]; ["b"; "c"]] = [g1; g2]
       /\ forall compile_group1 compile_group2 : list string -> outcome nat,
            PairTester_Compile compile_group1 compile_group2 [["a"]; ["b"; "c"]] =
            match compile_group1 g1 with
            | Thrown what => Thrown what
            | Returned sc1 =>
                match compile_group2 g2 with
                | Thrown what => Thrown what
                | Returned sc2 => Returned (sc1, sc2)
                end
            end.
Proof.
  assert (H : parse_args (fun r => Returned r)
                ["-t"; "simple"; "a"; "-t"; "multi"; "b"; "c"; "-f"; "log"] [] [] ""
              = Returned (["simple"; "multi"], [["a"]; ["b"; "c"]], "log"))
    by reflexivity.
  assert (Hsel : select_tester ["simple"; "multi"] = Some (PairTester simple multi))
    by reflexivity.
  split; [exact H|]. split; [exact Hsel|].
  exact (tester_size_tests_pass (S := nat) (fun r => Returned r) _ _ _ _ _ H Hsel).
Defined.

(** X12: [Main] never takes [back()] of an empty vector, and it gets as far
    as a compiled tester only when the arguments contain both a [-t] and a
    [-f]: without them it throws before any file is opened. *)
Theorem Main_needs_type_and_file {Fsm S : Type} (parse : string -> outcome Fsm)
    (Compile_of : scanner_type -> list Fsm -> outcome S) (argv : list string) :
  Main_compile parse Compile_of argv <> None
  /\ forall r, Main_compile parse Compile_of argv = Some (Returned r) ->
       "-t" ∈ tail argv /\ "-f" ∈ tail argv.
Proof.
  unfold Main_compile.
  destruct (parse_args parse (tail argv) [] [] "") as [[[types fsms] file]|what] eqn:Hp.
  2:{ split; [discriminate|]. intros r [=]. }
  assert (Hdef : arguments_missing types fsms file <> None).
  { apply arguments_missing_defined.
    apply (parse_args_lengths parse _ _ _ _ _ _ _ Hp). reflexivity. }
  destruct (parse_args_options parse _ _ _ _ _ _ _ Hp) as [Hty Hfi].
  destruct (arguments_missing types fsms file) as [[|]|] eqn:Hmiss;
    [split; [discriminate | intros r [=]] | | contradiction].
  split.
  { destruct (select_tester types); [|discriminate].
    destruct (tester_Compile Compile_of t fsms); discriminate. }
  intros r _. unfold arguments_missing in Hmiss. split.
  - destruct Hty as [->|Hty]; [discriminate | exact Hty].
  - destruct Hfi as [->|Hfi]; [|exact Hfi].
    destruct types; [discriminate|]. cbn in Hmiss. discriminate.
Qed.

Lemma Main_needs_type_and_file_witness :
  Main_compile (fun r => Returned r) (fun _ => Compile_Do String.length)
    ["bench"; "-f"; "log"; "-t"; "simple"; "a+"]
  = Some (Returned (Tester simple, CompiledOne 2%nat, "log"))
  /\ "-t" ∈ tail ["bench"; "-f"; "log"; "-t"; "simple"; "a+"]
  /\ "-f" ∈ tail ["bench"; "-f"; "log"; "-t"; "simple"; "a+"].
Proof.
  assert (H : Main_compile (fun r => Returned r) (fun _ => Compile_Do String.length)
                ["bench"; "-f"; "log"; "-t"; "simple"; "a+"]
              = Some (Returned (Tester simple, CompiledOne 2%nat, "log")))
    by reflexivity.
  split; [exact H|].
  exact (proj2 (Main_needs_type_and_file (fun r => Returned r)
                  (fun _ => Compile_Do String.length) _) _ H).
Defined.

Section CommandLine.

Context {Fsm : Type}.
Variable parse : string -> outcome Fsm.
Variable fsm_of : string -> Fsm.
Hypothesis parse_ok : forall r, parse r = Returned (fsm_of r).

Lemma add_regexp_snoc {R : Type} (r : string) (fsms : list (list Fsm)) (g : list Fsm)
    (k : list (list Fsm) -> outcome R) :
  add_regexp parse r (fsms ++ [g]) k = k (fsms ++ [g ++ [fsm_of r]]).
Proof.
  unfold add_regexp. rewrite parse_ok, push_back_last_snoc.
  destruct fsms; reflexivity.
Qed.

Lemma parse_args_regexps (rs rest types : list string) (fsms : list (list Fsm))
    (g : list Fsm) (file : string) :
  parse_args parse (flat_map (fun r => ["-e"; r]) rs ++ rest) types (fsms ++ [g]) file
  = parse_args parse rest types (fsms ++ [g ++ map fsm_of rs]) file.
Proof.
  revert g. induction rs as [|r rs IH]; intros g.
  { cbn [flat_map map app]. rewrite app_nil_r. reflexivity. }
  cbn [flat_map map app]. cbn [parse_args].
  change (String.eqb "-e" "-t") with false. change (String.eqb "-e" "-f") with false.
  change (String.eqb "-e" "-e") with true. cbn iota.
  rewrite add_regexp_snoc, IH, <- app_assoc. reflexivity.
Qed.

Lemma parse_args_groups (groups : list (string * list string)) (rest types : list string)
    (fsms : list (list Fsm)) (file : string) :
  parse_args parse
    (flat_map (fun g => ["-t"; g.1] ++ flat_map (fun r => ["-e"; r]) g.2) groups ++ rest)
    types fsms file
  = parse_args parse rest (types ++ map fst groups)
      (fsms ++ map (fun g => map fsm_of g.2) groups) file.
Proof.
  revert types fsms. induction groups as [|[t rs] groups IH]; intros types fsms.
  { cbn [flat_map map app]. rewrite !app_nil_r. reflexivity. }
  cbn [flat_map map app fst snd]. rewrite <- !app_assoc. cbn [app parse_args].
  change (String.eqb "-t" "-t") with true. cbn iota.
  rewrite parse_args_regexps, IH. cbn [app]. rewrite <- !app_assoc. reflexivity.
Qed.

End CommandLine.

(** X13: reading back a command line.  With the file behind [-f] and every
    regexp behind [-e], whatever strings they are (a regexp may be [-t]),
    the loop of [Main] returns the types in their order, for each type the
    machines of its regexps in their order, and the file name. *)
Theorem parse_args_command_line {Fsm : Type} (parse : string -> outcome Fsm)
    (fsm_of : string -> Fsm) (file : string) (groups : list (string * list string)) :
  (forall r, parse r = Returned (fsm_of r)) ->
  parse_args parse (command_line file groups) [] [] ""
  = Returned (map fst groups, map (fun g => map fsm_of g.2) groups, file).
Proof.
  intros Hparse. unfold command_line. cbn [app parse_args].
  change (String.eqb "-f" "-t") with false. change (String.eqb "-f" "-f") with true.
  cbn iota.
  rewrite <- (app_nil_r (flat_map _ groups)).
  rewrite (parse_args_groups parse fsm_of Hparse). reflexivity.
Qed.

Lemma parse_args_command_line_witness :
  (forall r : string, Returned r = Returned (id r))
  /\ parse_args (fun r => Returned r)
       (command_line "log" [("multi", ["a+"; "-t"]); ("simple", ["-f"])]) [] [] ""
     = Returned (["multi"; "simple"], [["a+"; "-t"]; ["-f"]], "log").
Proof.
  assert (H : forall r : string, @Returned string r = Returned (id r))
    by (intros r; reflexivity).
  split; [exact H|].
  exact (parse_args_command_line (fun r => Returned r) id "log"
           [("multi", ["a+"; "-t"]); ("simple", ["-f"])] H).
Defined.

Section Glueing.

Context {Fsm : Type}.
Variable compile : Fsm -> Scanner.
Variable default_maxSize : nat.

Implicit Types (sc : Scanner) (fsms : list Fsm) (idx j k : nat).

Lemma Do_loop_glues fsms : forall sc idx,
  idx <> O ->
  (forall k, (0 < k <= length fsms)%nat ->
     Empty (fold_left (fun sc f => Glue sc (compile f) default_maxSize) (take k fsms) sc)
     = false) ->
  Do_loop compile default_maxSize sc idx fsms =
  Returned (fold_left (fun sc f => Glue sc (compile f) default_maxSize) fsms sc).
Proof.
  induction fsms as [|f fsms IH]; intros sc idx Hidx Hne; [reflexivity|].
  cbn [Do_loop fold_left]. destruct (Nat.eqb_spec idx 0); [contradiction|].
  pose proof (Hne 1%nat ltac:(cbn [length]; lia)) as H1.
  change (take 1 (f :: fsms)) with [f] in H1. cbn [fold_left] in H1. rewrite H1.
  apply IH; [lia|]. intros k Hk.
  apply (Hne (S k)). cbn [length]. lia.
Qed.

Lemma Do_loop_fails j : forall fsms sc idx,
  idx <> O -> (j < length fsms)%nat ->
  (forall k, (0 < k <= j)%nat ->
     Empty (fold_left (fun sc f => Glue sc (compile f) default_maxSize) (take k fsms) sc)
     = false) ->
  Empty (fold_left (fun sc f => Glue sc (compile f) default_maxSize) (take (S j) fsms) sc)
  = true ->
  Do_loop compile default_maxSize sc idx fsms =
  Thrown ("Scanner gluing failed at regexp #" +:+ pretty (idx + j)%nat
          +:+ " - pattern too complicated").
Proof.
  induction j as [|j IH]; intros fsms sc idx Hidx Hj Hne HE;
    (destruct fsms as [|f fsms]; [cbn [length] in Hj; lia|]);
    cbn [Do_loop]; (destruct (Nat.eqb_spec idx 0); [contradiction|]).
  - change (take 1 (f :: fsms)) with [f] in HE. cbn [fold_left] in HE.
    rewrite HE, Nat.add_0_r. reflexivity.
  - pose proof (Hne 1%nat ltac:(lia)) as H1.
    change (take 1 (f :: fsms)) with [f] in H1. cbn [fold_left] in H1. rewrite H1.
    rewrite (IH fsms (Glue sc (compile f) default_maxSize) (S idx)).
    + rewrite Nat.add_succ_r. reflexivity.
    + lia.
    + cbn [length] in Hj. lia.
    + intros k Hk. apply (Hne (S k)). lia.
    + exact HE.
Qed.

End Glueing.

(** X14: [Compile<Scanner<Relocation>>::Do] glues from the left: the first
    regexp is compiled alone, with no call of [Glue], and each further one
    is glued to the scanner so far; when no intermediate result is the empty
    scanner, [Do] returns the scanner of all the regexps glued in their
    order.  Of no regexp at all it returns the empty scanner, with no
    exception. *)
Theorem Do_glues_in_order {Fsm : Type} (compile : Fsm -> Scanner) (default_maxSize : nat)
    (first : Fsm) (rest : list Fsm) :
  Do compile default_maxSize [] = Returned empty_scanner
  /\ Do compile default_maxSize [first] = Returned (compile first)
  /\ ((forall k, (0 < k <= length rest)%nat ->
         Empty (glue_all compile default_maxSize first (take k rest)) = false) ->
      Do compile default_maxSize (first :: rest)
      = Returned (glue_all compile default_maxSize first rest)).
Proof.
  split; [reflexivity|]. split; [reflexivity|].
  intros Hne. unfold Do, glue_all in *. cbn [Do_loop Nat.eqb].
  apply Do_loop_glues; [lia | exact Hne].
Qed.

Lemma Do_glues_in_order_witness :
  (forall k, (0 < k <= length [cycle2; cycle2])%nat ->
     Empty (glue_all (fun sc => sc) 0 cycle2 (take k [cycle2; cycle2])) = false)
  /\ Do (fun sc => sc) 0 [cycle2; cycle2; cycle2]
     = Returned (glue_all (fun sc => sc) 0 cycle2 [cycle2; cycle2]).
Proof.
  assert (H : forall k, (0 < k <= length [cycle2; cycle2])%nat ->
     Empty (glue_all (fun sc => sc) 0 cycle2 (take k [cycle2; cycle2])) = false).
  { intros k Hk. cbn [length] in Hk.
    destruct k as [|[|[|k]]]; [lia | reflexivity | reflexivity | lia]. }
  split; [exact H|].
  exact (proj2 (proj2 (Do_glues_in_order (fun sc => sc) 0 cycle2 [cycle2; cycle2])) H).
Defined.

(** X15: the failure [Do] reports is the first one: when gluing the regexp
    at position [j + 1] is the first to give the empty scanner, [Do] throws
    "Scanner gluing failed at regexp #" with that position, and the
    regexps after it are not looked at. *)
Theorem Do_reports_first_failure {Fsm : Type} (compile : Fsm -> Scanner)
    (default_maxSize : nat) (first : Fsm) (rest : list Fsm) (j : nat) :
  (j < length rest)%nat ->
  (forall k, (0 < k <= j)%nat ->
     Empty (glue_all compile default_maxSize first (take k rest)) = false) ->
  Empty (glue_all compile default_maxSize first (take (S j) rest)) = true ->
  Do compile default_maxSize (first :: rest)
  = Thrown ("Scanner gluing failed at regexp #" +:+ pretty (S j)
            +:+ " - pattern too complicated")
  /\ forall rest', Do compile default_maxSize (first :: take (S j) rest ++ rest')
       = Do compile default_maxSize (first :: rest).
Proof.
  intros Hj Hne HE. unfold Do, glue_all in *. cbn [Do_loop Nat.eqb].
  assert (Hfail : forall l, take (S j) l = take (S j) rest -> (j < length l)%nat ->
    Do_loop compile default_maxSize (compile first) 1 l =
    Thrown ("Scanner gluing failed at regexp #" +:+ pretty (S j)
            +:+ " - pattern too complicated")).
  { intros l Hl Hjl. apply (Do_loop_fails compile default_maxSize j l _ 1%nat);
      [lia | exact Hjl | | rewrite Hl; exact HE].
    intros k Hk.
    replace (take k l) with (take k rest); [apply Hne, Hk|].
    replace k with (min k (S j)) by lia. rewrite <- !take_take, Hl. reflexivity. }
  split; [apply Hfail; [reflexivity | exact Hj]|].
  intros rest'. rewrite (Hfail rest eq_refl Hj). apply Hfail.
  - rewrite take_app_le by (rewrite length_take; lia).
    apply take_idemp.
  - rewrite length_app, length_take. lia.
Qed.

Lemma Do_reports_first_failure_witness :
  (0 < length [cycle2; cycle2])%nat
  /\ Empty (glue_all (fun sc => sc) 1 cycle2 (take 1 [cycle2; cycle2])) = true
  /\ Do (fun sc => sc) 1 [cycle2; cycle2; cycle2]
     = Thrown "Scanner gluing failed at regexp #1 - pattern too complicated".
Proof.
  assert (Hj : (0 < length [cycle2; cycle2])%nat) by (cbn [length]; lia).
  assert (Hne : forall k, (0 < k <= 0)%nat ->
     Empty (glue_all (fun sc => sc) 1 cycle2 (take k [cycle2; cycle2])) = false)
    by (intros k Hk; lia).
  assert (HE : Empty (glue_all (fun sc => sc) 1 cycle2 (take 1 [cycle2; cycle2])) = true)
    by reflexivity.
  split; [exact Hj|]. split; [exact HE|].
  exact (proj1 (Do_reports_first_failure (fun sc => sc) 1 cycle2 [cycle2; cycle2] 0
                  Hj Hne HE)).
Defined.

(** ** The memory tester *)

Lemma MemTester_Run_loop_words (load : Z -> Z) (fuel : nat) : forall b e c,
  e - b <= 8 * Z.of_nat fuel ->
  MemTester_Run_loop load fuel b e c =
  fold_left Z.lxor (map load (words_from b (Z.to_nat ((e - b + 7) / 8)))) c.
Proof.
  induction fuel as [|fuel IH]; intros b e c Hfuel; cbn [MemTester_Run_loop].
  { replace (Z.to_nat ((e - b + 7) / 8)) with O; [reflexivity|].
    assert ((e - b + 7) / 8 <= 0); [|lia].
    apply Z.lt_succ_r. apply Z.div_lt_upper_bound; lia. }
  destruct (Z.ltb_spec b e) as [Hlt|Hge].
  - rewrite IH by lia.
    replace (Z.to_nat ((e - b + 7) / 8)) with (S (Z.to_nat ((e - (b + 8) + 7) / 8))).
    { reflexivity. }
    replace (e - b + 7) with (e - (b + 8) + 7 + 1 * 8) by lia.
    rewrite Z.div_add by lia.
    assert (0 <= (e - (b + 8) + 7) / 8) by (apply Z.div_pos; lia). lia.
  - replace (Z.to_nat ((e - b + 7) / 8)) with O; [reflexivity|].
    assert ((e - b + 7) / 8 <= 0); [|lia].
    apply Z.lt_succ_r. apply Z.div_lt_upper_bound; lia.
Qed.

(** X16: [MemTester::Run] xors the eight-byte words at [begin],
    [begin + 8], ... as long as their address is below [end]: the number of
    words is the length of the buffer divided by eight, rounded up, so when
    that length is not a multiple of eight the last word read ends after
    [end]. *)
Theorem MemTester_Run_words (load : Z -> Z) (begin_ end_ : Z) :
  MemTester_Run load begin_ end_ =
    fold_left Z.lxor
      (map load (words_from begin_ (Z.to_nat ((end_ - begin_ + 7) / 8)))) 0
  /\ (begin_ < end_ ->
      begin_ + 8 * (Z.of_nat (Z.to_nat ((end_ - begin_ + 7) / 8)) - 1) < end_
      /\ end_ <= begin_ + 8 * Z.of_nat (Z.to_nat ((end_ - begin_ + 7) / 8))
      /\ ((end_ - begin_) mod 8 <> 0 ->
          end_ < begin_ + 8 * Z.of_nat (Z.to_nat ((end_ - begin_ + 7) / 8)))).
Proof.
  split.
  { unfold MemTester_Run. apply MemTester_Run_loop_words. lia. }
  intros Hlt.
  assert (H0 : 0 <= (end_ - begin_ + 7) / 8) by (apply Z.div_pos; lia).
  rewrite Z2Nat.id by exact H0.
  pose proof (Z.div_mod (end_ - begin_ + 7) 8 ltac:(lia)) as Hdm.
  pose proof (Z.mod_pos_bound (end_ - begin_ + 7) 8 ltac:(lia)) as Hm.
  split; [lia|]. split; [lia|].
  intros Hmod.
  pose proof (Z.div_mod (end_ - begin_) 8 ltac:(lia)) as Hdm'.
  pose proof (Z.mod_pos_bound (end_ - begin_) 8 ltac:(lia)) as Hm'.
  assert (Hq : (end_ - begin_ + 7) / 8 = (end_ - begin_) / 8 + 1).
  { symmetry. apply (Z.div_unique _ _ _ ((end_ - begin_) mod 8 - 1)); lia. }
  lia.
Qed.

Lemma MemTester_Run_words_witness :
  0 < 11
  /\ (11 - 0) mod 8 <> 0
  /\ MemTester_Run (fun p => p + 1) 0 11 = Z.lxor (Z.lxor 0 1) 9
  /\ 11 < 0 + 8 * Z.of_nat (Z.to_nat ((11 - 0 + 7) / 8)).
Proof.
  assert (Hlt : 0 < 11) by lia.
  assert (Hmod : (11 - 0) mod 8 <> 0) by (vm_compute; discriminate).
  split; [exact Hlt|]. split; [exact Hmod|].
  split; [exact (proj1 (MemTester_Run_words (fun p => p + 1) 0 11))|].
  exact (proj2 (proj2 (proj2 (MemTester_Run_words (fun p => p + 1) 0 11) Hlt)) Hmod).
Defined.

End BenchFacts.

(** * Letters and the reset gate *)

(** X17: characters with the same letter are interchangeable: [Next] gives
    the same state and the same action for two characters that
    [m_letters] maps to one letter, and two runs that differ only in such
    characters end in the same state. *)
Theorem same_letter_same_run (sc : CountingScanner) (evs evs' : list Event) :
  Forall2 (same_letter sc) evs evs' ->
  run sc evs = run sc evs'
  /\ forall s c c', Translate sc c = Translate sc c' -> Next sc s c = Next sc s c'.
Proof.
  intros Hsame. split.
  - unfold run. generalize (Initialize sc) as s.
    induction Hsame as [|ev ev' evs evs' Hev Hevs IH]; intros s; [reflexivity|].
    cbn [fold_left].
    replace (step sc s ev') with (step sc s ev); [apply IH|].
    destruct ev as [c|a], ev' as [c'|a']; cbn [same_letter] in Hev;
      try contradiction; cbn [step].
    + unfold Next. rewrite Hev. reflexivity.
    + rewrite Hev. reflexivity.
  - intros s c c' Hc. unfold Next. rewrite Hc. reflexivity.
Qed.

Lemma same_letter_same_run_witness :
  Forall2 (same_letter scanner0) [EvNext 97; EvAction 1] [EvNext 98; EvAction 1]
  /\ run scanner0 [EvNext 97; EvAction 1] = run scanner0 [EvNext 98; EvAction 1].
Proof.
  assert (H : Forall2 (same_letter scanner0)
                [EvNext 97; EvAction 1] [EvNext 98; EvAction 1]).
  { repeat constructor. }
  split; [exact H|].
  exact (proj1 (same_letter_same_run scanner0 _ _ H)).
Defined.

(** X18: the reset gate on the patterns [TakeAction] handles.  After every
    run a counter that is not zero has its gate bit, bit
    [MAX_RE_COUNT + i] of [m_updatedMask], set, for every [i < MAX_RE_COUNT];
    and for [i < OPTIMAL_RE_COUNT], along the first [2^32 - 1] steps of a
    run, the gate bit is set exactly when [current[i]] is not zero. *)
Theorem gate_bit_of_handled_patterns (sc : CountingScanner) (evs : list Event) (i : nat) :
  ((i < MAX_RE_COUNT)%nat -> m_current (run sc evs) !!! i <> 0 ->
   Z.testbit (m_updatedMask (run sc evs)) (Z.of_nat (MAX_RE_COUNT + i)) = true)
  /\ ((i < OPTIMAL_RE_COUNT)%nat -> Z.of_nat (length evs) < 2 ^ 32 ->
      (Z.testbit (m_updatedMask (run sc evs)) (Z.of_nat (MAX_RE_COUNT + i)) = true
       <-> 0 < m_current (run sc evs) !!! i)).
Proof.
  pose proof (gate_sound_run sc evs) as (_ & _ & Hr & Hg & _).
  split; [apply Hg|].
  intros Hi Hlen.
  assert (Hi16 : (i < MAX_RE_COUNT)%nat)
    by (unfold OPTIMAL_RE_COUNT, MAX_RE_COUNT in *; lia).
  destruct (Hr i Hi16) as [[H0 _] _]. split.
  - intros Hb. pose proof (gate_exact_low sc evs i Hlen Hi Hb). lia.
  - intros Hpos. apply Hg; [exact Hi16 | lia].
Qed.

Lemma gate_bit_of_handled_patterns_witness :
  (2 < OPTIMAL_RE_COUNT)%nat
  /\ Z.of_nat (length [EvAction 4; EvAction 262144; EvAction 4]) < 2 ^ 32
  /\ (Z.testbit (m_updatedMask (run scanner0 [EvAction 4; EvAction 262144; EvAction 4]))
        (Z.of_nat (MAX_RE_COUNT + 2)) = true
      <-> 0 < m_current (run scanner0 [EvAction 4; EvAction 262144; EvAction 4]) !!! 2%nat).
Proof.
  assert (Hi : (2 < OPTIMAL_RE_COUNT)%nat) by (unfold OPTIMAL_RE_COUNT; lia).
  assert (Hlen : Z.of_nat (length [EvAction 4; EvAction 262144; EvAction 4]) < 2 ^ 32)
    by reflexivity.
  split; [exact Hi|]. split; [exact Hlen|].
  exact (proj2 (gate_bit_of_handled_patterns scanner0
                  [EvAction 4; EvAction 262144; EvAction 4] 2) Hi Hlen).
Defined.

(** * Patterns do not interfere *)

Lemma TakeAction_other_pattern (s : State) (a : Z) (j : nat) :
  length (m_total s) = length (m_current s) ->
  Z.testbit a (Z.of_nat (MAX_RE_COUNT + j)) = false ->
  Z.testbit a (Z.of_nat j) = false \/ (OPTIMAL_RE_COUNT <= j)%nat ->
  m_current (TakeAction s a) !!! j = m_current s !!! j
  /\ m_total (TakeAction s a) !!! j = m_total s !!! j.
Proof.
  intros Hlen Hres Hinc. rewrite TakeAction_halves.
  assert (Hinc' : m_current (increment_half s a) !!! j = m_current s !!! j).
  { unfold increment_half. destruct (nonzero _); [|reflexivity].
    rewrite PerformIncrement_current. unfold bumps.
    destruct Hinc as [->|Hhigh]; [rewrite andb_false_r; reflexivity|].
    rewrite (bool_decide_eq_false_2 (j < OPTIMAL_RE_COUNT)%nat) by lia. reflexivity. }
  assert (Hlen' : length (m_total (increment_half s a))
                  = length (m_current (increment_half s a))).
  { rewrite increment_half_total. unfold increment_half.
    destruct (nonzero _); [|exact Hlen].
    destruct (PerformIncrement_frame OPTIMAL_RE_COUNT s a) as (_ & _ & ->). exact Hlen. }
  rewrite <- Hinc', <- (increment_half_total s a).
  unfold reset_half. destruct (nonzero (Z.land a ResetMask)); [|auto].
  destruct (PerformReset_counters OPTIMAL_RE_COUNT (increment_half s a) a j Hlen')
    as [-> ->].
  rewrite commits_clear by assumption. auto.
Qed.

(** X19: the patterns do not interfere: on a state that occurs at run time,
    [TakeAction(s, a)] leaves [current[j]] and [total[j]] as they were for
    every pattern [j] of which neither the increment bit [j] nor the reset
    bit [MAX_RE_COUNT + j] is set in [a]. *)
Theorem TakeAction_leaves_other_patterns (sc : CountingScanner) (s : State)
    (a : Z) (j : nat) :
  runtime_state sc s ->
  Z.testbit a (Z.of_nat j) = false ->
  Z.testbit a (Z.of_nat (MAX_RE_COUNT + j)) = false ->
  m_current (TakeAction s a) !!! j = m_current s !!! j
  /\ m_total (TakeAction s a) !!! j = m_total s !!! j
  /\ Result (TakeAction s a) j = Result s j.
Proof.
  intros Hrt Hinc Hres.
  pose proof (gate_sound_runtime_state sc s Hrt) as (Hc & Ht & _).
  destruct (TakeAction_other_pattern s a j) as [Hcur Htot]; [congruence | auto..|].
  unfold Result. rewrite Hcur, Htot. auto.
Qed.

Lemma TakeAction_leaves_other_patterns_witness :
  let s := run scanner0 [EvAction 3; EvAction 131072; EvAction 2] in
  runtime_state scanner0 s
  /\ Z.testbit 65537 (Z.of_nat 1) = false
  /\ Z.testbit 65537 (Z.of_nat (MAX_RE_COUNT + 1)) = false
  /\ Result (TakeAction s 65537) 1 = Result s 1.
Proof.
  intros s.
  assert (Hrt : runtime_state scanner0 s) by apply runtime_state_run.
  assert (H1 : Z.testbit 65537 (Z.of_nat 1) = false) by reflexivity.
  assert (H2 : Z.testbit 65537 (Z.of_nat (MAX_RE_COUNT + 1)) = false) by reflexivity.
  split; [exact Hrt|]. split; [exact H1|]. split; [exact H2|].
  exact (proj2 (proj2 (TakeAction_leaves_other_patterns scanner0 s 65537 1 Hrt H1 H2))).
Defined.

(** X20: the action words [RemapAction] produces, delivered to
    [TakeAction] on a state that occurs at run time: the word of a tag
    other than [Matched|Dead] and [Dead] changes nothing at all, and the
    words of these two tags change the counters of pattern 0 only:
    [Matched|Dead] adds one to [current[0]] (in 32-bit arithmetic), [Dead]
    commits [current[0]] into [total[0]] and zeroes it. *)
Theorem RemapAction_at_run_time (sc : CountingScanner) (s : State) (tag : Z) (j : nat) :
  runtime_state sc s ->
  (tag <> Z.lor Matched DeadFlag -> tag <> DeadFlag ->
   TakeAction s (RemapAction tag) = s)
  /\ (j <> O ->
      m_current (TakeAction s (RemapAction tag)) !!! j = m_current s !!! j
      /\ m_total (TakeAction s (RemapAction tag)) !!! j = m_total s !!! j)
  /\ m_current (TakeAction s (RemapAction (Z.lor Matched DeadFlag))) !!! 0%nat
     = ui32 (m_current s !!! 0%nat + 1)
  /\ m_total (TakeAction s (RemapAction (Z.lor Matched DeadFlag))) !!! 0%nat
     = m_total s !!! 0%nat
  /\ m_current (TakeAction s (RemapAction DeadFlag)) !!! 0%nat = 0
  /\ m_total (TakeAction s (RemapAction DeadFlag)) !!! 0%nat
     = Z.max (m_total s !!! 0%nat) (m_current s !!! 0%nat).
Proof.
  intros Hrt. pose proof (gate_sound_runtime_state sc s Hrt) as Hgs.
  pose proof Hgs as (Hc & Ht & _).
  assert (H0 : (0 < OPTIMAL_RE_COUNT)%nat) by (unfold OPTIMAL_RE_COUNT; lia).
  split; [|split].
  - intros H1 H2. unfold RemapAction.
    destruct (Z.eqb_spec tag (Z.lor Matched DeadFlag)); [contradiction|].
    destruct (Z.eqb_spec tag DeadFlag); [contradiction|].
    destruct s. reflexivity.
  - intros Hj.
    assert (Hres : Z.testbit (RemapAction tag) (Z.of_nat (MAX_RE_COUNT + j)) = false).
    { unfold RemapAction, MAX_RE_COUNT.
      destruct (tag =? Z.lor Matched DeadFlag);
        [|destruct (tag =? DeadFlag)]; rewrite ?Z.bits_0; try reflexivity;
        first [ rewrite Z.shiftl_1_l; apply Z.pow2_bits_false; lia
              | apply (Z.pow2_bits_false 0); lia ]. }
    assert (Hinc : Z.testbit (RemapAction tag) (Z.of_nat j) = false
                   \/ (OPTIMAL_RE_COUNT <= j)%nat).
    { destruct (decide (j < OPTIMAL_RE_COUNT)%nat) as [Hlo|Hhi]; [left | right; lia].
      unfold RemapAction, MAX_RE_COUNT, OPTIMAL_RE_COUNT in *.
      destruct (tag =? Z.lor Matched DeadFlag);
        [|destruct (tag =? DeadFlag)]; rewrite ?Z.bits_0; try reflexivity;
        first [ rewrite Z.shiftl_1_l; apply Z.pow2_bits_false; lia
              | apply (Z.pow2_bits_false 0); lia ]. }
    apply TakeAction_other_pattern; [congruence | exact Hres | exact Hinc].
  - destruct (TakeAction_pattern_sound s (RemapAction (Z.lor Matched DeadFlag)) 0 Hgs H0)
      as [Hc1 Ht1].
    destruct (TakeAction_pattern_sound s (RemapAction DeadFlag) 0 Hgs H0) as [Hc2 Ht2].
    rewrite Hc1, Ht1, Hc2, Ht2. repeat split.
Qed.

Lemma RemapAction_at_run_time_witness :
  let s := run scanner0 [EvAction 1; EvAction 1] in
  runtime_state scanner0 s
  /\ FinalFlag <> Z.lor Matched DeadFlag /\ FinalFlag <> DeadFlag
  /\ TakeAction s (RemapAction FinalFlag) = s.
Proof.
  intros s.
  assert (Hrt : runtime_state scanner0 s) by apply runtime_state_run.
  assert (H1 : FinalFlag <> Z.lor Matched DeadFlag) by (vm_compute; discriminate).
  assert (H2 : FinalFlag <> DeadFlag) by (vm_compute; discriminate).
  split; [exact Hrt|]. split; [exact H1|]. split; [exact H2|].
  exact (proj1 (RemapAction_at_run_time scanner0 s FinalFlag 1 Hrt) H1 H2).
Defined.

(** * The file mapping of the benchmark tool *)

Module MmapFacts.

Import Pire Mmap.

(** X21: what a [FileMmap] gives back to the system over its whole life,
    whatever the system answers to [open], [fstat] and [mmap]: nothing is
    released twice; a descriptor is closed exactly when [open] returned
    it and it is not [0] (descriptor [0] is never closed); a mapping is
    unmapped only if the constructor returned, and then it is the one
    [mmap] returned with the length [fstat] stored; and after [Close] a
    second [Close] makes no call. *)
Theorem FileMmap_releases_once (MAP_FAILED : Z) (name : string) (sys : answers)
    (f : FileMmap) :
  NoDup (life MAP_FAILED name sys)
  /\ (forall fd, close fd ∈ life MAP_FAILED name sys <->
        fd = open_result sys /\ fd <> -1 /\ fd <> 0)
  /\ (forall addr len, munmap addr len ∈ life MAP_FAILED name sys ->
        addr = mmap_result sys /\ len = st_size sys /\ addr <> 0
        /\ exists f', (FileMmap_new MAP_FAILED name sys).2 = Returned f')
  /\ (Close (Close f).2).1 = [].
Proof.
  assert (Hclose : forall g,
    (Close g).1 = (if nonzero (m_mmap g) then [munmap (m_mmap g) (m_len g)] else [])
                  ++ (if nonzero (m_fd g) then [close (m_fd g)] else []))
    by reflexivity.
  unfold life, FileMmap_new.
  destruct (Z.eqb_spec (open_result sys) (-1)) as [Hopen|Hopen];
    [|destruct (nonzero (fstat_result sys)) eqn:Hstat;
      [|destruct (Z.eqb_spec (mmap_result sys) MAP_FAILED) as [Hmap|Hmap]]];
    cbn [fst snd app]; rewrite ?Hclose; cbn [m_fd m_mmap m_len];
    change (nonzero 0) with false; cbn iota; cbn [app];
    try (destruct (nonzero (mmap_result sys)) eqn:Hm);
    destruct (nonzero (open_result sys)) eqn:Hfd; cbn [app];
    try apply nonzero_true in Hfd; try apply nonzero_false in Hfd;
    try apply nonzero_true in Hm; try apply nonzero_false in Hm;
    (split; [repeat constructor; rewrite ?elem_of_cons, ?elem_of_nil;
             intuition discriminate|]);
    (split; [intros fd; rewrite ?elem_of_cons, ?elem_of_nil; split;
             [intros H; repeat destruct H as [H|H]; try discriminate;
              try contradiction; try (injection H as ->; auto)
             |intros (-> & H1 & H2); try contradiction; try lia; auto]|]);
    (split; [intros addr len; rewrite ?elem_of_cons, ?elem_of_nil;
             intros H; repeat destruct H as [H|H]; try discriminate;
             try contradiction; injection H as -> ->; eauto|]);
    reflexivity.
Qed.

Lemma FileMmap_releases_once_witness :
  munmap 4096 100 ∈ life (-1) "log" (mkAnswers 3 0 100 4096 "")
  /\ 4096 = mmap_result (mkAnswers 3 0 100 4096 "")
  /\ 100 = st_size (mkAnswers 3 0 100 4096 "")
  /\ life (-1) "log" (mkAnswers 3 0 100 4096 "") = [munmap 4096 100; close 3]
  /\ life (-1) "log" (mkAnswers 3 0 100 (-1) "Cannot allocate memory") = [close 3]
  /\ life (-1) "log" (mkAnswers 0 0 100 4096 "") = [munmap 4096 100].
Proof.
  assert (H : munmap 4096 100 ∈ life (-1) "log" (mkAnswers 3 0 100 4096 ""))
    by apply list_elem_of_here.
  destruct (proj1 (proj2 (proj2 (FileMmap_releases_once (-1) "log"
              (mkAnswers 3 0 100 4096 "") (mkFileMmap 0 0 0))))
            4096 100 H) as (H1 & H2 & _).
  split; [exact H|]. split; [exact H1|]. split; [exact H2|].
  repeat split.
Defined.

End MmapFacts.
